(** * A shallow embedding of the maven-repo proxy (Rust) and its properties.

    The development follows the source tree:
    - [Common]      : Rust's [Result], the HTTP [Return] value of [status.rs]
                      and the error enumeration of [err.rs];
    - [Repo]        : [repository.rs] (configuration record, [merge],
                      [check_auth]);
    - [Look]        : [get_repo_look_locations] of [repository.rs];
    - [ResolveGet], [ResolveImpl] : the [check_result] combine rule of
                      [get.rs] and of [get/interal_impl.rs];
    - [Str]         : the [str] methods the parsers use;
    - [PathInfoM]   : [PathInfo::parse] of [path_info.rs];
    - [PutM]        : [WriteFile::poll_write] and the copy loop of [put.rs];
    - [RemoteM]     : the caching branch of [serve_remote_repository];
    - [Cond]        : ETag and conditional-header evaluation of
                      [get_repo_file] in [get.rs] (same logic as
                      [get/header.rs]);
    - [Samples]     : concrete configurations used by the properties.

    Functions of external crates (bcrypt, chrono's RFC 2822 parser and
    printer, the digest crates) are section variables: every theorem holds
    for all of their behaviours. *)

From Stdlib Require Import ZArith String Ascii Bool List Lia.
From stdpp Require Import base gmap strings list.

Open Scope string_scope.

Module Common.

(** Rust's [Result<A, E>]. *)
Inductive result (A E : Type) : Type :=
| Ok (a : A)
| Err (e : E).
Arguments Ok {A E} _.
Arguments Err {A E} _.

(** [Option::or]. *)
Definition option_or {A} (a b : option A) : option A :=
  match a with
  | Some _ => a
  | None => b
  end.

(** [Option::and_then]. *)
Definition and_then {A B} (o : option A) (f : A -> option B) : option B :=
  match o with
  | Some a => f a
  | None => None
  end.

(** [status::Content]; the memory map and the upstream response are
    opaque payloads. *)
Inductive Content : Type :=
| CMmap
| CResponse
| CStr (s : string)
| CString (s : string)
| CNone.

Inductive ContentType : Type := Text | Binary | HTML | XML.

(** A header map as the ordered list of its (name, value) entries. *)
Definition HeaderMap := list (string * string).

(** [status::Return]; the status is the numeric HTTP code. *)
Record Return : Type := mkReturn {
  status : N;
  content : Content;
  content_type : ContentType;
  header_map : option HeaderMap;
}.

Definition UNAUTHORIZED : Return :=
  mkReturn 401 (CStr "Unauthorized") Text None.
Definition FORBIDDEN : Return :=
  mkReturn 403 (CStr "Forbidden") Text None.

(** [err::GetRepoFileError]. The revisions in the tree disagree on the
    payload of a few variants (a status code or a limit); the payloads play
    no role here and are left out. *)
Inductive GetRepoFileError : Type :=
| MainConfigError | OpenConfig | ReadConfig | ParseConfig
| NotFound
| OpenFile | ReadDirectory | ReadDirectoryEntry
| ReadDirectoryEntryNonUTF8Name | ReadDirectoryEntryFileType
| Panicked
| InvalidUTF8 | BadRequestPath | FileStartsWithDot | NotSupportedByOs
| UpstreamRequestError | UpstreamBodyReadError | UpstreamStatus
| UpstreamFileTooLarge | PutFileTooLarge
| FileCreateFailed | FileWriteFailed | FileFlushFailed
| FileSeekFailed | FileLockFailed.

(** [DEFAULT_MAX_FILE_SIZE] of [main.rs]: 4 GiB. *)
Definition DEFAULT_MAX_FILE_SIZE : N := 4 * 1024 * 1024 * 1024.

End Common.
Import Common.

Module Repo.

Record Header : Type := mkHeader { hname : string; hvalue : string }.

Record RemoteUpstream : Type := mkRemote {
  url : string;
  timeout : N;
  remote_time_fresh : option N;
}.

Inductive Upstream : Type :=
| Local (path : string)
| Remote (r : RemoteUpstream).

Record PathAuthorization : Type := mkPathAuth {
  read : bool; put : bool; delete : bool
}.

Record Token : Type := mkToken {
  token_hash : string;
  paths : gmap string PathAuthorization;
}.

(** [struct Repository]; durations are nanosecond counts. *)
Record Repository : Type := mkRepository {
  stores_remote_upstream : option bool;
  publicly_readable : option bool;
  hide_directory_listings : option bool;
  infer_content_type_on_file_extension : option bool;
  time_fresh : option N;
  max_file_size : option N;
  cache_control_file : list Header;
  cache_control_metadata : list Header;
  cache_control_dir_listings : list Header;
  cache_control_status_code : gmap N (list Header);
  upstreams : list Upstream;
  tokens : gmap string Token;
}.

(** [Vec::extend]: append at the end. *)
Definition vec_extend {A} (self other : list A) : list A := self ++ other.

(** [HashMap::extend]: every entry of [other] is inserted into [self], so
    on a shared key the value of [other] replaces the one of [self]; this
    is stdpp's left-biased union with [other] on the left. *)
Definition hashmap_extend {K V} `{Countable K}
    (self other : gmap K V) : gmap K V := other ∪ self.

(** [Repository::merge(&mut self, other)], returning the new [self]. *)
Definition merge (self other : Repository) : Repository := {|
  stores_remote_upstream :=
    option_or self.(stores_remote_upstream) other.(stores_remote_upstream);
  publicly_readable :=
    option_or self.(publicly_readable) other.(publicly_readable);
  hide_directory_listings :=
    option_or self.(hide_directory_listings) other.(hide_directory_listings);
  infer_content_type_on_file_extension :=
    option_or self.(infer_content_type_on_file_extension)
              other.(infer_content_type_on_file_extension);
  time_fresh := self.(time_fresh);
  max_file_size := option_or self.(max_file_size) other.(max_file_size);
  cache_control_file :=
    vec_extend self.(cache_control_file) other.(cache_control_file);
  cache_control_metadata :=
    vec_extend self.(cache_control_metadata) other.(cache_control_metadata);
  cache_control_dir_listings :=
    vec_extend self.(cache_control_dir_listings)
               other.(cache_control_dir_listings);
  cache_control_status_code :=
    hashmap_extend self.(cache_control_status_code)
                   other.(cache_control_status_code);
  upstreams := self.(upstreams);
  tokens := hashmap_extend self.(tokens) other.(tokens);
|}.

(** [rocket::http::Method], with the methods the code distinguishes. *)
Inductive Method : Type := Get | Put | Delete | OtherMethod.

Record BasicAuthentication : Type := mkAuth {
  username : string;
  password : string;
}.

Section CheckAuth.
(** [bcrypt::verify(password, hash)]: [Ok] with the verdict, or an error. *)
Variable bcrypt_verify : string -> string -> result bool string.

Definition ERROR_VALIDATING_PASSWORD : Return :=
  mkReturn 500 (CStr "Error validating password") Text None.

(** [Repository::check_auth]. *)
Definition check_auth (self : Repository) (method : Method)
    (auth : option BasicAuthentication) (path : string)
    : result bool Return :=
  let needs_auth :=
    match method with
    | Get => negb (default true self.(publicly_readable))
    | _ => true
    end in
  if needs_auth then
    match auth with
    | None => Err UNAUTHORIZED
    | Some auth =>
      match self.(tokens) !! auth.(username) with
      | None => Err UNAUTHORIZED
      | Some token =>
        match token.(paths) !! path with
        | None => Err UNAUTHORIZED
        | Some pa =>
          match bcrypt_verify auth.(password) token.(token_hash) with
          | Ok true =>
            if match method with
               | Get => pa.(read)
               | Put => pa.(put)
               | Delete => pa.(delete)
               | OtherMethod => false
               end
            then Ok true
            else Err FORBIDDEN
          | Ok false => Err UNAUTHORIZED
          | Err _ => Err ERROR_VALIDATING_PASSWORD
          end
        end
      end
    end
  else Ok false.
End CheckAuth.

End Repo.

(** ** Repository graph expansion: [get_repo_look_locations] *)
Module Look.
Import Repo.

(** The state threaded through [get_repo_look_locations]: the join set
    (pending config loads, by path, in completion order), the [visited]
    set, the output list, the error list, and the process-wide config
    cache [REPOSITORIES]. *)
Record LookState : Type := mkLook {
  js : list string;
  visited : gset string;
  out : list (string * Repository);
  errors : list GetRepoFileError;
  cache : gmap string Repository;
}.

Definition set_visited (st : LookState) v :=
  mkLook st.(js) v st.(out) st.(errors) st.(cache).
Definition push_out (st : LookState) x :=
  mkLook st.(js) st.(visited) (st.(out) ++ [x]) st.(errors) st.(cache).
Definition spawn (st : LookState) p :=
  mkLook (st.(js) ++ [p]) st.(visited) st.(out) st.(errors) st.(cache).

(** One iteration of [for upstream in &config.upstreams] inside
    [check_repo]. [configs] is the work stack, its head the top. Lookups
    read the cache snapshot [repository_cache] taken when [check_repo]
    started. *)
Definition check_upstream (repository_cache : gmap string Repository)
    (acc : list (string * Repository) * LookState) (u : Upstream)
    : list (string * Repository) * LookState :=
  let '(configs, st) := acc in
  match u with
  | Remote _ => acc
  | Local p =>
    (* [visited.insert(p)] is true iff [p] was absent *)
    if decide (p ∈ st.(visited)) then acc
    else
      let st := set_visited st ({[p]} ∪ st.(visited)) in
      match repository_cache !! p with
      | Some repo => ((p, repo) :: configs, push_out st (p, repo))
      | None => (configs, spawn st p)
      end
  end.

(** The [while let Some((repo, config)) = configs.pop()] loop of
    [check_repo], run with [fuel] iterations at most ([None] when the fuel
    runs out). *)
Fixpoint check_repo_loop (fuel : nat) (repository_cache : gmap string Repository)
    (configs : list (string * Repository)) (st : LookState) : option LookState :=
  match configs with
  | [] => Some st
  | (_, config) :: rest =>
    match fuel with
    | O => None
    | S fuel =>
      let '(configs, st) :=
        fold_left (check_upstream repository_cache) config.(upstreams) (rest, st) in
      check_repo_loop fuel repository_cache configs st
    end
  end.

(** [check_repo(js, repo, config, visited, out)]. *)
Definition check_repo (fuel : nat) (repo : string) (config : Repository)
    (st : LookState) : option LookState :=
  check_repo_loop fuel st.(cache) [(repo, config)] st.

Section Expand.
(** The configuration files on disk, already merged with the main config:
    what [get_repo_config] loads for an uncached name. *)
Variable disk : gmap string Repository.

(** [get_repo_config] for an uncached name: load, insert into the cache. *)
Definition get_repo_config (st : LookState) (p : string)
    : result Repository GetRepoFileError * LookState :=
  match st.(cache) !! p with
  | Some c => (Ok c, st)
  | None =>
    match disk !! p with
    | Some c => (Ok c, mkLook st.(js) st.(visited) st.(out) st.(errors)
                               (<[p := c]> st.(cache)))
    | None => (Err NotFound, st)
    end
  end.

(** [while let Some(task) = js.join_next().await { .. }], the join set
    completing its tasks in spawn order. *)
Fixpoint join_loop (fuel : nat) (repo : string) (st : LookState)
    : option LookState :=
  match st.(js) with
  | [] => Some st
  | p :: rest =>
    match fuel with
    | O => None
    | S fuel =>
      let st := mkLook rest st.(visited) st.(out) st.(errors) st.(cache) in
      match get_repo_config st p with
      | (Ok config, st) =>
        match check_repo fuel repo config st with
        | Some st => join_loop fuel repo (push_out st (p, config))
        | None => None
        end
      | (Err e, st) =>
        join_loop fuel repo
          (mkLook st.(js) st.(visited) st.(out) (st.(errors) ++ [e]) st.(cache))
      end
    end
  end.

(** [get_repo_look_locations(repo, config)], with the cache as it is when
    the request arrives. Returns [(out, errors)]. *)
Definition get_repo_look_locations (fuel : nat) (cache0 : gmap string Repository)
    (repo : string) (config : Repository)
    : option (list (string * Repository) * list GetRepoFileError) :=
  let st0 := mkLook [] ∅ [(repo, config)] [] cache0 in
  match check_repo fuel repo config st0 with
  | None => None
  | Some st =>
    match join_loop fuel repo st with
    | None => None
    | Some st => Some (st.(out), st.(errors))
    end
  end.
End Expand.

End Look.

(** ** The combine rule of the resolution pipeline ([check_result]) *)

(** A completed task of the [JoinSet], in completion order: the task's own
    [Result], or a panic ([JoinError]). *)
Inductive Joined (R : Type) : Type :=
| TaskOk (r : R)
| TaskErr (errs : list GetRepoFileError)
| TaskPanicked.
Arguments TaskOk {R} _.
Arguments TaskErr {R} _.
Arguments TaskPanicked {R}.

(** [get.rs]: [StoredRepoPath] of the module the binary compiles, and the
    [check_result] closure of [get_repo_file_impl]. The memory map and the
    upstream response are identified by a number. *)
Module ResolveGet.

Inductive StoredRepoPath : Type :=
| Mmap (id : nat)
| Upstream (id : nat)
| DirListing (entries : gset string).

(** The [while let Some(task) = js.join_next().await] loop with the
    accumulator [out]; returns [(out, errors)]. A [return] aborts the
    remaining tasks, which are then never observed. *)
Fixpoint check_result_loop (out : option StoredRepoPath)
    (errors : list GetRepoFileError) (tasks : list (Joined StoredRepoPath))
    : option StoredRepoPath * list GetRepoFileError :=
  match tasks with
  | [] => (out, errors)
  | TaskOk v :: rest =>
    match out, v with
    | Some (DirListing o), DirListing v =>
      (* [out.extend(v)] on a [HashSet] *)
      check_result_loop (Some (DirListing (o ∪ v))) errors rest
    | Some o, _ => (Some o, errors)              (* js.abort_all(); return *)
    | None, v => check_result_loop (Some v) errors rest
    end
  | TaskErr v :: rest => check_result_loop out (errors ++ v) rest
  | TaskPanicked :: rest => check_result_loop out (errors ++ [Panicked]) rest
  end.

Definition check_result (errors : list GetRepoFileError)
    (tasks : list (Joined StoredRepoPath)) :=
  check_result_loop None errors tasks.

(** The positive results among the completions, in order. *)
Fixpoint positives (tasks : list (Joined StoredRepoPath)) : list StoredRepoPath :=
  match tasks with
  | [] => []
  | TaskOk v :: rest => v :: positives rest
  | _ :: rest => positives rest
  end.

(** Reading of the rule as "first to complete wins, leading listings
    merge": the union of the run of [DirListing]s at the head of [ps],
    stopping at the first result of another kind. *)
Fixpoint listing_run (acc : gset string) (ps : list StoredRepoPath) : gset string :=
  match ps with
  | DirListing e :: rest => listing_run (acc ∪ e) rest
  | _ => acc
  end.

Definition first_wins (ps : list StoredRepoPath) : option StoredRepoPath :=
  match ps with
  | [] => None
  | DirListing e :: rest => Some (DirListing (listing_run e rest))
  | p :: _ => Some p
  end.

End ResolveGet.

(** [get/interal_impl.rs]: the newer [StoredRepoPath] with [IsADir] and
    listings carrying their metadata, and the [check_result] closure of
    [resolve_impl]. *)
Module ResolveImpl.

Inductive FileKind : Type := KFile | KDir | KOther.

Inductive StoredRepoPath : Type :=
| Mmap (id : nat)
| Upstream (id : nat)
| DirListing (metadata : list nat) (entries : gmap string FileKind)
| IsADir.

Fixpoint check_result_loop (out : option StoredRepoPath)
    (errors : list GetRepoFileError) (tasks : list (Joined StoredRepoPath))
    : option StoredRepoPath * list GetRepoFileError :=
  match tasks with
  | [] => (out, errors)
  | TaskOk v :: rest =>
    match out, v with
    | _, IsADir => (Some IsADir, errors)
    | Some (DirListing metadata entries), DirListing metadata_1 entries_1 =>
      (* [entries.extend(entries_1)] on a [HashMap]; [metadata.append] *)
      check_result_loop
        (Some (DirListing (metadata ++ metadata_1) (entries_1 ∪ entries)))
        errors rest
    | Some o, _ => (Some o, errors)
    | None, v => check_result_loop (Some v) errors rest
    end
  | TaskErr v :: rest => check_result_loop out (errors ++ v) rest
  | TaskPanicked :: rest => check_result_loop out (errors ++ [Panicked]) rest
  end.

Definition check_result (errors : list GetRepoFileError)
    (tasks : list (Joined StoredRepoPath)) :=
  check_result_loop None errors tasks.

Fixpoint positives (tasks : list (Joined StoredRepoPath)) : list StoredRepoPath :=
  match tasks with
  | [] => []
  | TaskOk v :: rest => v :: positives rest
  | _ :: rest => positives rest
  end.

(** Reading of the rule as "first to complete wins, leading listings merge,
    [IsADir] wins while the collection is still running". *)
Fixpoint listing_run (metadata : list nat) (entries : gmap string FileKind)
    (ps : list StoredRepoPath) : option StoredRepoPath :=
  match ps with
  | [] => Some (DirListing metadata entries)
  | DirListing m e :: rest => listing_run (metadata ++ m) (e ∪ entries) rest
  | IsADir :: _ => Some IsADir
  | _ :: _ => Some (DirListing metadata entries)
  end.

Definition first_wins (ps : list StoredRepoPath) : option StoredRepoPath :=
  match ps with
  | [] => None
  | IsADir :: _ => Some IsADir
  | DirListing m e :: rest => listing_run m e rest
  | _ :: IsADir :: _ => Some IsADir
  | p :: _ => Some p
  end.

End ResolveImpl.

(** ** [str] operations used by the parsers *)
Module Str.

(** [s.strip_prefix(p)]. *)
Fixpoint strip_prefix (p s : string) : option string :=
  match p, s with
  | EmptyString, _ => Some s
  | String a p', String b s' => if Ascii.eqb a b then strip_prefix p' s' else None
  | String _ _, EmptyString => None
  end.

Definition srev (s : string) : string :=
  string_of_list_ascii (rev (list_ascii_of_string s)).

(** [s.strip_suffix(p)]: a prefix match on the reversed strings. *)
Definition strip_suffix (p s : string) : option string :=
  match strip_prefix (srev p) (srev s) with
  | Some r => Some (srev r)
  | None => None
  end.

(** [s.split_once(c)]: split at the first [c]. *)
Fixpoint split_once (c : ascii) (s : string) : option (string * string) :=
  match s with
  | EmptyString => None
  | String a rest =>
    if Ascii.eqb a c then Some (EmptyString, rest)
    else match split_once c rest with
         | Some (l, r) => Some (String a l, r)
         | None => None
         end
  end.

(** [s.rsplit_once(c)]: split at the last [c]. *)
Fixpoint rsplit_once (c : ascii) (s : string) : option (string * string) :=
  match s with
  | EmptyString => None
  | String a rest =>
    match rsplit_once c rest with
    | Some (l, r) => Some (String a l, r)
    | None => if Ascii.eqb a c then Some (EmptyString, rest) else None
    end
  end.

(** [s.split(c)]: all pieces, empty ones included ([""] for [""]). *)
Fixpoint split (c : ascii) (s : string) : list string :=
  match s with
  | EmptyString => [EmptyString]
  | String a rest =>
    let pieces := split c rest in
    if Ascii.eqb a c then EmptyString :: pieces
    else match pieces with
         | p :: ps => String a p :: ps
         | [] => [String a EmptyString]
         end
  end.

Definition is_digit (a : ascii) : bool :=
  let n := nat_of_ascii a in (48 <=? n)%nat && (n <=? 57)%nat.

Fixpoint digits_value (acc : N) (s : string) : option N :=
  match s with
  | EmptyString => Some acc
  | String a rest =>
    if is_digit a then digits_value (acc * 10 + N.of_nat (nat_of_ascii a - 48)) rest
    else None
  end.

(** [u64::from_str_radix(s, 10)] with the text of [ParseIntError]: an
    optional leading [+] (not alone), decimal digits, at most [2^64 - 1]. *)
Definition u64_from_str_radix10 (s : string) : result N string :=
  match s with
  | EmptyString => Err "cannot parse integer from empty string"
  | String a rest =>
    let digits :=
      if Ascii.eqb a "+"%char then
        match rest with
        | EmptyString => None
        | _ => Some rest
        end
      else Some s in
    match digits with
    | None => Err "invalid digit found in string"
    | Some d =>
      match digits_value 0 d with
      | None => Err "invalid digit found in string"
      | Some v =>
        if (v <? 2 ^ 64)%N then Ok v else Err "number too large to fit in target type"
      end
    end
  end.

End Str.

(** ** [PathInfo::parse] ([path_info.rs]) *)
Module PathInfoM.

(** [std::path::Component]; [NormalNonUTF8] is a normal component that is
    not valid UTF-8 ([to_str] gives [None]). *)
Inductive Component : Type :=
| CurDir | ParentDir | RootDir | Prefix
| Normal (s : string)
| NormalNonUTF8.

Record SnapshotInfo : Type := mkSnapshot {
  timestamp : string;
  build_number : N;
}.

Record PathInfo : Type := mkPathInfo {
  group : list string;
  artifact : string;
  version : string;
  snapshot : option SnapshotInfo;
  classifier : option string;
  extension : option string;
}.

Definition bad_request (msg : string) : Return :=
  mkReturn 400 (CStr msg) Text None.

(** [GetRepoFileError::BadRequestPath.to_return()] and
    [GetRepoFileError::InvalidUTF8.to_return()]. *)
Definition BadRequestPath_return : Return :=
  mkReturn 400 (CStr "Error: Request Path failed sanity checks") Text None.
Definition InvalidUTF8_return : Return :=
  mkReturn 400 (CStr "Error: request path included invalid utf-8 characters") Text None.

(** The [for i in path.components().rev()] loop: the state is
    [(file_name, version, artifact, group)]. *)
Fixpoint components_loop (comps : list Component)
    (st : option string * option string * option string * list string)
    : result (option string * option string * option string * list string) Return :=
  match comps with
  | [] => Ok st
  | c :: rest =>
    let '(file_name, version, artifact, group) := st in
    match c with
    | CurDir => components_loop rest st
    | ParentDir | RootDir | Prefix => Err BadRequestPath_return
    | NormalNonUTF8 => Err InvalidUTF8_return
    | Normal i =>
      let st :=
        match file_name, version, artifact with
        | None, _, _ => (Some i, version, artifact, group)
        | Some _, None, _ => (file_name, Some i, artifact, group)
        | Some _, Some _, None => (file_name, version, Some i, group)
        | Some _, Some _, Some _ => (file_name, version, artifact, app group [i])
        end in
      components_loop rest st
    end
  end.

(** [PathInfo::parse(path)], the path given by its components in order. *)
Definition parse (path : list Component) : result PathInfo Return :=
  match components_loop (rev path) (None, None, None, []) with
  | Err e => Err e
  | Ok (_, version0, artifact0, group0) =>
    (* [let file_name = match version { .. }] *)
    match version0 with
    | None => Err (bad_request "Didn't find a File-Name in the path")
    | Some file_name =>
    match version0 with
    | None => Err (bad_request "Didn't find a Version in the path")
    | Some version =>
    match artifact0 with
    | None => Err (bad_request "Didn't find an Artifact-Id in the path")
    | Some artifact =>
    match group0 with
    | [] => Err (bad_request "Didn't find a Group-Id in the path")
    | _ =>
    let group := rev group0 in
    let '(file_name, extension) :=
      match Str.rsplit_once "."%char file_name with
      | Some (name, ext) => (name, Some ext)
      | None => (file_name, None)
      end in
    match and_then (Str.strip_prefix artifact file_name) (Str.strip_prefix "-") with
    | None => Err (bad_request "File didn't begin with artifact-id")
    | Some file_name =>
    let '(version, is_snapshot) :=
      match Str.strip_suffix "-SNAPSHOT" version with
      | Some v => (v, true)
      | None => (version, false)
      end in
    match and_then (Str.strip_prefix version file_name) (Str.strip_prefix "-") with
    | None => Err (bad_request "File didn't contain version")
    | Some file_name =>
    let snap :=
      if is_snapshot then
        match Str.split_once "-"%char file_name with
        | None => Err (bad_request "File didn't contain Snapshot timestamp")
        | Some (timestamp, file_name) =>
          match Str.split_once "-"%char file_name with
          | None => Err (bad_request "File didn't contain Snapshot build-number")
          | Some (build_number, file_name) =>
            match Str.u64_from_str_radix10 build_number with
            | Err err =>
              Err (mkReturn 400
                     (CString ("build-number in filename couldn't be parsed as a string: build-number: "
                               ++ build_number ++ ", err: " ++ err)) Text None)
            | Ok b => Ok (file_name, Some (mkSnapshot timestamp b))
            end
          end
        end
      else Ok (file_name, None) in
    match snap with
    | Err e => Err e
    | Ok (file_name, snapshot) =>
      Ok (mkPathInfo group artifact version snapshot
            (if (0 <? String.length file_name)%nat then Some file_name else None)
            extension)
    end
    end end end end end end
  end.

End PathInfoM.

(** ** The PUT body writer ([put.rs]) *)
Module PutM.

(** [std::io::ErrorKind] values the PUT path distinguishes. *)
Inductive IoErrorKind : Type := FileTooLarge | OtherIo.

(** [struct WriteFile]: the buffered file (modelled by the bytes written to
    it), the [limit], the [read] counter, and the four hashers, which all
    receive the same bytes (modelled by the byte stream they were fed). *)
Record WriteFile : Type := mkWriteFile {
  file : list Z;
  limit : N;
  read : N;
  hashed : list Z;
}.

(** [<WriteFile as AsyncWrite>::poll_write]. The inner [BufWriter] accepts
    the whole buffer. *)
Definition poll_write (self : WriteFile) (buf : list Z)
    : result nat IoErrorKind * WriteFile :=
  if (self.(limit) <=? self.(read))%N then (Err FileTooLarge, self)
  else
    let written := length buf in
    let buf := firstn written buf in
    (Ok written,
     mkWriteFile (app self.(file) buf) self.(limit) self.(read)
                 (app self.(hashed) buf)).

(** [tokio::io::copy(&mut data, &mut file)] with [data] delivering the
    request body as the chunks [body]: each chunk is written with
    [poll_write]; an error ends the copy. Returns the byte count. *)
Fixpoint copy (body : list (list Z)) (w : WriteFile) (total : nat)
    : result nat IoErrorKind * WriteFile :=
  match body with
  | [] => (Ok total, w)
  | chunk :: rest =>
    match chunk with
    | [] => copy rest w total
    | _ =>
      match poll_write w chunk with
      | (Err e, w) => (Err e, w)
      | (Ok n, w) => copy rest w (total + n)
      end
    end
  end.

(** [GetRepoFileError::PutFileTooLarge.to_return()] (status 413; the
    message, which ends in the limit, is abridged) and
    [GetRepoFileError::FileWriteFailed.to_return()] (status 500). *)
Definition PutFileTooLarge_return : Return :=
  mkReturn 413 (CStr "The file is too Large.") Text None.
Definition FileWriteFailed_return : Return :=
  mkReturn 500 (CStr "Error: Failed to write to a local file") Text None.

(** The writing step of [put_file(file, file_path, limit, data)]: the
    [WriteFile] is set up with [read: 0] and the body is copied into it. On
    an error the created file is removed and the error mapped to a
    response; this is the only step of [put_file] that can answer 413.
    Returns the writer on success. *)
Definition put_file_write (limit : N) (body : list (list Z))
    : result WriteFile Return :=
  match copy body (mkWriteFile [] limit 0 []) 0 with
  | (Ok _, w) => Ok w
  | (Err FileTooLarge, _) => Err PutFileTooLarge_return
  | (Err OtherIo, _) => Err FileWriteFailed_return
  end.

End PutM.

(** ** The caching branch of [serve_remote_repository] ([get.rs], same
    control flow in [get/remote.rs]) *)
Module RemoteM.

(** The outcome of [File::create_new] followed by the exclusive [lock]
    inside the blocking task. *)
Inductive CreateOutcome : Type :=
| CreateFailed              (* create_new failed: no file *)
| LockFailedAfterCreate     (* file created, exclusive lock failed *)
| Created.

(** One [response.chunk().await]. *)
Inductive Chunk : Type :=
| ChunkOk (bytes : list Z)
| ChunkErr.

(** The environment of one run: how each I/O step turns out. [chunks] is
    the body stream, ended by [Ok(None)]. *)
Record RemoteIo : Type := mkRemoteIo {
  create : CreateOutcome;
  chunks : list Chunk;
  write_all_ok : list Z -> bool;
  shutdown_ok : bool;
  seek_ok : bool;
  relock_ok : bool;   (* unlock, lock_shared, metadata, mmap, advise *)
}.

(** The files present on disk. *)
Definition Fs := gset string.

Definition remove_file (path : string) (fs : Fs) : Fs := fs ∖ {[path]}.

(** The chunk loop: [current_size] and the bytes written so far. *)
Fixpoint body_loop (io : RemoteIo) (path : string) (limit : N)
    (chunks : list Chunk) (current_size : N) (written : list Z) (fs : Fs)
    : result (list Z) GetRepoFileError * Fs :=
  match chunks with
  | [] => (Ok written, fs)
  | ChunkErr :: _ => (Err UpstreamBodyReadError, fs)
  | ChunkOk body :: rest =>
    let current_size := (current_size + N.of_nat (length body))%N in
    if (limit <=? current_size)%N then (Err UpstreamFileTooLarge, fs)
    else if io.(write_all_ok) body then
      body_loop io path limit rest current_size (app written body) fs
    else (Err FileWriteFailed, remove_file path fs)
  end.

(** From the upstream's [200 OK] on, with [stores_remote_upstream] set:
    create and lock the file, stream the body, flush, seek, relock shared
    and map. [Ok] carries the bytes of the mapped file. *)
Definition serve_remote_store (io : RemoteIo) (path : string) (limit : N)
    (fs : Fs) : result (list Z) (list GetRepoFileError) * Fs :=
  match io.(create) with
  | CreateFailed => (Err [FileCreateFailed], fs)
  | LockFailedAfterCreate => (Err [FileCreateFailed], {[path]} ∪ fs)
  | Created =>
    let fs := {[path]} ∪ fs in
    match body_loop io path limit io.(chunks) 0 [] fs with
    | (Err e, fs) => (Err [e], fs)
    | (Ok written, fs) =>
      if negb io.(shutdown_ok) then (Err [FileFlushFailed], remove_file path fs)
      else if negb io.(seek_ok) then (Err [FileSeekFailed], fs)
      else if negb io.(relock_ok) then (Err [FileLockFailed], fs)
      else (Ok written, fs)
    end
  end.

End RemoteM.

(** ** ETag and conditional requests ([get_repo_file] in [get.rs]) *)
Module Cond.

(** The base64 crate's [general_purpose::STANDARD] engine: RFC 4648
    alphabet, [=] padding. Bytes are [Z]s in [0, 255]. *)
Definition b64_alphabet : string :=
  "ABCDEFGHIJKLMNOPQRSTUVWXYZabcdefghijklmnopqrstuvwxyz0123456789+/".

Definition b64_char (n : Z) : string :=
  match String.get (Z.to_nat (Z.land n 63)) b64_alphabet with
  | Some c => String c EmptyString
  | None => EmptyString
  end.

Fixpoint base64_encode (bytes : list Z) : string :=
  match bytes with
  | a :: b :: c :: rest =>
    let n := Z.lor (Z.shiftl a 16) (Z.lor (Z.shiftl b 8) c) in
    b64_char (Z.shiftr n 18) ++ b64_char (Z.shiftr n 12) ++
    b64_char (Z.shiftr n 6) ++ b64_char n ++ base64_encode rest
  | [a; b] =>
    let n := Z.lor (Z.shiftl a 16) (Z.shiftl b 8) in
    b64_char (Z.shiftr n 18) ++ b64_char (Z.shiftr n 12) ++
    b64_char (Z.shiftr n 6) ++ "="
  | [a] =>
    let n := Z.shiftl a 16 in
    b64_char (Z.shiftr n 18) ++ b64_char (Z.shiftr n 12) ++ "=="
  | [] => EmptyString
  end.

(** The double-quote character. *)
Definition dquote : string := String "034"%char EmptyString.

(** The value of the [ETag] header for a BLAKE3 digest:
    [format!(r#""blake3-{}""#, STANDARD.encode(hash.as_bytes()))]. *)
Definition etag_value (hash : list Z) : string :=
  dquote ++ "blake3-" ++ base64_encode hash ++ dquote.

(** [struct ETag] and [enum ETagValidator] of [etag.rs]. *)
Record ETag : Type := mkETag { weak : bool; tag : string }.

Inductive ETagValidator : Type :=
| Any
| Tags (v : list ETag).

(** [ETag::parse]. *)
Definition ETag_parse (value : string) : option ETag :=
  let '(weak, value) :=
    match Str.strip_prefix "W/" value with
    | Some v => (true, v)
    | None => (false, value)
    end in
  match and_then (Str.strip_prefix dquote value) (Str.strip_suffix dquote) with
  | Some t => Some (mkETag weak t)
  | None => None
  end.

(** The loop of [ETagValidator::parse]: each piece loses one leading space
    and is parsed; the first failure ([?]) fails the whole. *)
Fixpoint parse_pieces (pieces : list string) : option (list ETag) :=
  match pieces with
  | [] => Some []
  | value :: rest =>
    let value := default value (Str.strip_prefix " " value) in
    match ETag_parse value with
    | None => None
    | Some t =>
      match parse_pieces rest with
      | None => None
      | Some ts => Some (t :: ts)
      end
    end
  end.

(** [ETagValidator::parse]. *)
Definition ETagValidator_parse (value : string) : option ETagValidator :=
  if String.eqb value "*" then Some Any
  else match parse_pieces (Str.split ","%char value) with
       | Some v => Some (Tags v)
       | None => None
       end.

(** An entity tag in the syntax [ETag::parse] accepts: after an optional
    [W/], the text is enclosed in double quotes. *)
Definition etag_quoted (x : string) : Prop :=
  ∃ t, default x (Str.strip_prefix "W/" x) = dquote ++ t ++ dquote.

(** The request headers, in order, and Rocket's [get] / [contains]. *)
Definition req_get (name : string) (req : list (string * string)) : list string :=
  map snd (filter (fun h => String.eqb (fst h) name) req).
Definition req_contains (name : string) (req : list (string * string)) : bool :=
  negb (Nat.eqb (length (req_get name req)) 0).

Section GetRepoFile.
(** [tag.matches(&map, &hash, &old_hash, ..).await.unwrap_or(false)]:
    base64-decodes the tag and compares it with the BLAKE3 or the lazily
    computed SHA3-512 digest. *)
Variable tag_matches : ETag -> bool.
(** [chrono::DateTime::parse_from_rfc2822]: a time in nanoseconds since
    the epoch, or the error's text. *)
Variable parse_from_rfc2822 : string -> result Z string.
(** [DateTime::to_rfc2822]. *)
Variable to_rfc2822 : Z -> string.
(** The value of the [Server-Timing] header. *)
Variable server_timing : string.

Definition st_header : string * string := ("Server-Timing", server_timing).

(** The [If-None-Match] loop: [(status, content)] so far, or the early
    [return] of a 400. *)
Fixpoint if_none_match_loop (vals : list string) (status : N)
    (content : option Content) : result (N * option Content) Return :=
  match vals with
  | [] => Ok (status, content)
  | i :: rest =>
    match ETagValidator_parse i with
    | Some Any => Ok (304%N, Some CNone)                  (* break *)
    | Some (Tags v) =>
      if existsb tag_matches v
      then if_none_match_loop rest 304%N (Some CNone)
      else if_none_match_loop rest status content
    | None =>
      Err (mkReturn 400 (CString ("Bad If-None-Match header: " ++ i)) Text
             (Some [st_header]))
    end
  end.

(** The [If-Match] loop: [any_match], or the early [return] of a 400. *)
Fixpoint if_match_loop (vals : list string) (any_match : bool)
    : result bool Return :=
  match vals with
  | [] => Ok any_match
  | i :: rest =>
    match ETagValidator_parse i with
    | Some Any => Ok true                                 (* break *)
    | Some (Tags v) => if_match_loop rest (any_match || existsb tag_matches v)
    | None =>
      Err (mkReturn 400 (CString ("Bad If-Match header: " ++ i)) Text
             (Some [st_header]))
    end
  end.

Definition bad_date (i err : string) : Return :=
  mkReturn 400
    (CString ("Invalid value '" ++ i ++ "' in If-Modified-Since header: " ++ err))
    Text (Some [st_header]).

(** The [If-Modified-Since] loop: [None] to go on, [Some r] to return. *)
Fixpoint if_modified_since_loop (vals : list string) (modification_datetime : Z)
    (header_map : HeaderMap) (content_type : ContentType) : option Return :=
  match vals with
  | [] => None
  | i :: rest =>
    match parse_from_rfc2822 i with
    | Ok http_time =>
      if (modification_datetime <? http_time)%Z
      then Some (mkReturn 304 CNone content_type
                          (Some (app header_map [st_header])))
      else if_modified_since_loop rest modification_datetime header_map content_type
    | Err err => Some (bad_date i err)
    end
  end.

(** The [If-Unmodified-Since] loop. *)
Fixpoint if_unmodified_since_loop (vals : list string) (modification_datetime : Z)
    (header_map : HeaderMap) (content_type : ContentType) : option Return :=
  match vals with
  | [] => None
  | i :: rest =>
    match parse_from_rfc2822 i with
    | Ok http_time =>
      if (http_time <=? modification_datetime)%Z
      then Some (mkReturn 412 CNone content_type
                          (Some (app header_map [st_header])))
      else if_unmodified_since_loop rest modification_datetime header_map content_type
    | Err err => Some (bad_date i err)
    end
  end.

(** [get_repo_file] from the point where resolution produced
    [StoredRepoPath::Mmap { metadata, data, hash, .. }]: [hash] is the
    BLAKE3 digest, [mtime] the file's [metadata.modified()], [req] the
    request headers. *)
Definition serve_mmap (hash : list Z) (mtime : Z) (req : list (string * string))
    : Return :=
  let content_type := Binary in
  let header_map :=
    [("ETag", etag_value hash); ("Last-Modified", to_rfc2822 mtime)] in
  let inm := req_get "If-None-Match" req in
  let contains_none_match := negb (Nat.eqb (length inm) 0) in
  match if_none_match_loop inm 200 None with
  | Err r => r
  | Ok (status, content) =>
    match (if req_contains "If-Match" req then
             match if_match_loop (req_get "If-Match" req) false with
             | Err r => Some r
             | Ok true => None
             | Ok false =>
               Some (mkReturn 412 CNone Text (Some [st_header]))
             end
           else None) with
    | Some r => r
    | None =>
      match (if req_contains "If-Unmodified-Since" req
                || (negb contains_none_match && req_contains "If-Modified-Since" req)
             then
               match (if contains_none_match then None
                      else if_modified_since_loop (req_get "If-Modified-Since" req)
                             mtime header_map content_type) with
               | Some r => Some r
               | None =>
                 if_unmodified_since_loop (req_get "If-Unmodified-Since" req)
                   mtime header_map content_type
               end
             else None) with
      | Some r => r
      | None =>
        mkReturn status (default CMmap content) content_type
                 (Some (app header_map [st_header]))
      end
    end
  end.
End GetRepoFile.

End Cond.

(** ** Concrete inputs *)
(** * Error statuses ([err.rs] and the error branch of [get_repo_file]) *)

Module ErrM.

(** [err::GetRepoFileError] as [err.rs] declares it, payloads included
    ([StatusCode] and the [u64] limits as numbers). *)
Inductive GetRepoFileError : Type :=
| OpenConfig | ReadConfig | ParseConfig
| NotFound
| OpenFile | ReadDirectory | ReadDirectoryEntry | ReadDirectoryEntryNonUTF8Name
| Panicked
| InvalidUTF8 | BadRequestPath
| UpstreamRequestError | UpstreamBodyReadError
| UpstreamStatus (status : N)
| UpstreamFileTooLarge (limit : N)
| PutFileTooLarge (limit : N)
| FileCreateFailed | FileWriteFailed | FileFlushFailed | FileSeekFailed
| FileLockFailed
| FileContainsNoDot.

(** [GetRepoFileError::allowed_status_codes_slice]; 400 is [BadRequest],
    404 [NotFound], 413 [PayloadTooLarge], 500 [InternalServerError] and
    507 [InsufficientStorage]. *)
Definition allowed_status_codes_slice (e : GetRepoFileError) : list N :=
  match e with
  | OpenConfig => [500]
  | ReadConfig => [500]
  | ParseConfig => [500]
  | NotFound => [404; 500]
  | OpenFile => [500]
  | ReadDirectory => [500]
  | ReadDirectoryEntry => [500]
  | ReadDirectoryEntryNonUTF8Name => [400; 500]
  | Panicked => [500]
  | InvalidUTF8 => [400; 500]
  | BadRequestPath => [400; 500]
  | UpstreamRequestError => [500]
  | UpstreamBodyReadError => [500]
  | FileCreateFailed => [500]
  | FileWriteFailed => [500]
  | FileFlushFailed => [500]
  | FileSeekFailed => [500]
  | FileLockFailed => [500]
  | UpstreamStatus _ => [500]
  | UpstreamFileTooLarge _ => [507; 500]
  | PutFileTooLarge _ => [413; 500]
  | FileContainsNoDot => [400; 404; 500]
  end%N.

(** [GetRepoFileError::get_status_code]. *)
Definition get_status_code (e : GetRepoFileError) : N :=
  match head (allowed_status_codes_slice e) with
  | Some v => v
  | None => 500%N
  end.

(** [GetRepoFileError::allowed_status_codes]: the [HashSet] of the slice. *)
Definition allowed_status_codes (e : GetRepoFileError) : gset N :=
  list_to_set (allowed_status_codes_slice e).

(** [codes.into_iter().min()] on a [HashSet<Status>]. *)
Definition set_min (codes : gset N) : option N :=
  fold_right (fun c acc =>
                match acc with
                | None => Some c
                | Some m => Some (N.min c m)
                end) None (elements codes).

(** The [for err in v] loop of the error branch of [get_repo_file]: the
    first error sets [status_code] to its allowed set, every later one
    intersects it. *)
Fixpoint status_code_loop (status_code : option (gset N))
    (v : list GetRepoFileError) : option (gset N) :=
  match v with
  | [] => status_code
  | err :: rest =>
    status_code_loop
      (match status_code with
       | None => Some (allowed_status_codes err)
       | Some s => Some (s ∩ allowed_status_codes err)
       end) rest
  end.

(** The status of the error response of [get_repo_file]:
    [status_code.map(|codes| codes.into_iter().min()).unwrap_or(None)
     .unwrap_or(Status::InternalServerError)]. *)
Definition error_status (v : list GetRepoFileError) : N :=
  default 500%N
    (match status_code_loop None v with
     | Some codes => set_min codes
     | None => None
     end).

End ErrM.

(** * [Repository::default] and [Repository::apply_cache_control] *)

Module RepoDefaults.
Import Repo.

(** [impl Default for Repository]. *)
Definition default_repository : Repository :=
  mkRepository None None None None None None [] [] [] ∅ [] ∅.

(** [Repository::apply_cache_control(&self, &mut ret)], returning the new
    [ret]: the header map is created if absent, and the headers configured
    for the response's status code are added at its end. *)
Definition apply_cache_control (self : Repository) (ret : Return) : Return :=
  let header_map := default [] ret.(header_map) in
  let header_map :=
    match self.(cache_control_status_code) !! ret.(status) with
    | Some headers => app header_map (map (fun h => (hname h, hvalue h)) headers)
    | None => header_map
    end in
  mkReturn ret.(status) ret.(content) ret.(content_type) (Some header_map).

End RepoDefaults.

(** * [ServerTimings] ([timings.rs]) *)

Module Timings.

Record ServerTimings : Type := mkServerTimings { value : string }.

(** [ServerTimings::new]. *)
Definition new : ServerTimings := mkServerTimings "".

(** [ServerTimings::push]. *)
Definition push (self : ServerTimings) (s : string) : ServerTimings :=
  let v := if String.eqb self.(value) "" then self.(value)
           else self.(value) ++ ", " in
  mkServerTimings (v ++ s).

(** The loop of [push_iter_nodelim], with its flag [added_delim]. *)
Fixpoint push_iter_loop (added_delim : bool) (value : string)
    (iter : list string) : string :=
  match iter with
  | [] => value
  | i :: rest =>
    let value :=
      if negb added_delim && negb (String.eqb value "") then value ++ ", "
      else value in
    push_iter_loop true (value ++ i) rest
  end.

(** [ServerTimings::push_iter_nodelim]. *)
Definition push_iter_nodelim (self : ServerTimings) (iter : list string)
    : ServerTimings :=
  mkServerTimings (push_iter_loop false self.(value) iter).

(** [ServerTimings::append]. *)
Definition append (self other : ServerTimings) : ServerTimings :=
  let v := if negb (String.eqb self.(value) "") && negb (String.eqb other.(value) "")
           then self.(value) ++ ", " else self.(value) in
  mkServerTimings (v ++ other.(value)).

End Timings.

(** * [PathInfo::dotted_group] *)

Module GroupM.

(** [self.group.iter().fold(String::new(), ..)]: a ['.'] before every
    component once the accumulator is non-empty. *)
Definition dotted_group (group : list string) : string :=
  fold_left (fun initial v =>
               (if String.eqb initial "" then initial else initial ++ ".") ++ v)
            group "".

End GroupM.

(** * Serving a local look location ([serve_repository_stored_path]) *)

Module LocalM.
Import Repo ResolveGet.

(** The [std::io::ErrorKind]s the code tells apart. *)
Inductive IoErrorKind : Type := IsADirectory | KindNotFound | OtherKind.

(** One [next_entry()] of a [read_dir] stream, which the list's end closes
    with [Ok(None)]: an error, a name that is not UTF-8, or a name. *)
Inductive DirEntry : Type :=
| EntryErr
| EntryNonUTF8
| Entry (name : string).

(** What the file system answers for the path: [tokio::fs::metadata]
    ([Ok] with [is_dir()]), the blocking open-lock-map task ([Some (Ok m)]
    with the mapped file, [Some (Err k)] with the error's kind, [None] when
    the task panicked) and [tokio::fs::read_dir]. *)
Record LocalFs : Type := mkLocalFs {
  fs_metadata : result bool IoErrorKind;
  fs_open_map : option (result nat IoErrorKind);
  fs_read_dir : result (list DirEntry) IoErrorKind;
}.

(** The [loop] over [v.next_entry()] of [serve_repository_stored_dir]. *)
Fixpoint read_dir_loop (entries : list DirEntry) (out : gset string)
    : result StoredRepoPath (list GetRepoFileError) :=
  match entries with
  | [] => Ok (DirListing out)
  | EntryErr :: _ => Err [ReadDirectoryEntry]
  | EntryNonUTF8 :: _ => Err [ReadDirectoryEntryNonUTF8Name]
  | Entry name :: rest => read_dir_loop rest ({[name]} ∪ out)
  end.

(** [serve_repository_stored_dir]. *)
Definition serve_repository_stored_dir (fs : LocalFs)
    : result StoredRepoPath (list GetRepoFileError) :=
  match fs.(fs_read_dir) with
  | Err KindNotFound => Err [NotFound]
  | Err _ => Err [ReadDirectory]
  | Ok entries => read_dir_loop entries ∅
  end.

(** The [delegate!] macro, run while [errors] is still empty. *)
Definition delegate (fs : LocalFs) (display_dir : bool)
    : result StoredRepoPath (list GetRepoFileError) :=
  if negb display_dir then Err [NotFound]
  else
    match serve_repository_stored_dir fs with
    | Ok v => Ok v
    | Err err => Err (app [] err)
    end.

(** The [handle_err!] macro. *)
Definition handle_err (fs : LocalFs) (display_dir : bool) (kind : IoErrorKind)
    : result StoredRepoPath (list GetRepoFileError) :=
  match kind with
  | IsADirectory => if display_dir then delegate fs display_dir else Err [OpenFile]
  | KindNotFound => Err [NotFound]
  | OtherKind => Err [OpenFile]
  end.

(** [serve_repository_stored_path(path, display_dir)]. *)
Definition serve_repository_stored_path (fs : LocalFs) (display_dir : bool)
    : result StoredRepoPath (list GetRepoFileError) :=
  match fs.(fs_metadata) with
  | Ok is_dir =>
    if is_dir then delegate fs display_dir
    else
      match fs.(fs_open_map) with
      | Some (Ok map) => Ok (Mmap map)
      | Some (Err kind) => handle_err fs display_dir kind
      | None => Err [OpenFile]
      end
  | Err kind => handle_err fs display_dir kind
  end.

(** The [display_dir] passed for the look location with config
    [repo_config] in [get_repo_file_impl], [config] being the requested
    repository's config. *)
Definition display_dir (config repo_config : Repository) : bool :=
  negb (default (default false repo_config.(hide_directory_listings))
                config.(hide_directory_listings)).

End LocalM.

(** * [BasicAuthentication::from_request] ([auth.rs]) *)

Module AuthM.
Import Repo.

(** Rocket's [Outcome]: [Error] carries a status and the [Return]. *)
Inductive Outcome : Type :=
| Success (a : BasicAuthentication)
| Forward (s : N)
| Failure (s : N) (r : Return).

(** The answers with status 400 ([ContentType::Plain] is [text/plain],
    written [Text] here). *)
Definition bad_auth (msg : string) : Outcome :=
  Failure 400 (mkReturn 400 (CStr msg) Text None).

Section FromRequest.
(** [general_purpose::STANDARD.decode] and [String::from_utf8]. *)
Variable decode : string -> option (list Z).
Variable from_utf8 : list Z -> option string.

(** [BasicAuthentication::from_request], on the request headers. *)
Definition from_request (req : list (string * string)) : Outcome :=
  match head (Cond.req_get "Authorization" req) with
  | None => Forward 403
  | Some request =>
    match Str.strip_prefix "Basic " request with
    | None => bad_auth "Got an Authorization header with something other than 'Basic' type auth"
    | Some auth =>
      match decode auth with
      | None => bad_auth "Got an Basic Authorization header with invalid Base64"
      | Some auth =>
        match from_utf8 auth with
        | None => bad_auth "Request with Basic Authorization header and valid Base64, but the contained bytes were invalid UTF-8"
        | Some auth =>
          match Str.split_once ":"%char auth with
          | None => bad_auth "Request with Basic Authorization header and valid Base64 with valid UTF-8 contents, but the contained UTF-8 string did not contain a ':'"
          | Some (username, password) => Success (mkAuth username password)
          end
        end
      end
    end
  end.
End FromRequest.

End AuthM.

(** * The checks of [put_repo_file] before the upload ([put.rs]) *)

Module PutRoute.
Import Repo PathInfoM.

Definition comp_str (c : Component) : string :=
  match c with
  | CurDir => "."
  | Normal s => s
  | _ => ""
  end.

(** [path.to_str()] of a relative path: its components joined by [/], or
    [None] when one is not UTF-8. *)
Definition path_to_str (path : list Component) : option string :=
  if existsb (fun c => match c with NormalNonUTF8 => true | _ => false end) path
  then None
  else Some (String.concat "/" (map comp_str path)).

Definition is_bad_component (c : Component) : bool :=
  match c with
  | ParentDir | RootDir | Prefix => true
  | _ => false
  end.

(** [path.has_root()]. *)
Definition has_root (path : list Component) : bool :=
  match path with
  | RootDir :: _ => true
  | _ => false
  end.

(** One leading and one trailing [/] removed from [str_path]. *)
Definition strip_slashes (s : string) : string :=
  let s := default s (Str.strip_prefix "/" s) in
  default s (Str.strip_suffix "/" s).

Definition REMOTES_FORBIDDEN : Return :=
  mkReturn 403 (CStr "It's forbidden to deploy to a repo, which has remotes.")
    Text None.

Section Prelude.
Variable bcrypt_verify : string -> string -> result bool string.

(** [put_repo_file] up to [PathInfo::parse]: [auth] is the request guard's
    outcome, [config] the outcome of [get_repo_config(repo)] with the error
    already turned into its [Return]. [Ok info] is where the upload
    proper starts. *)
Definition put_repo_file_prelude (path : list Component)
    (auth : option (result BasicAuthentication Return))
    (config : result Repository Return) : result PathInfo Return :=
  match auth with
  | Some (Err err) => Err err
  | _ =>
    let auth := match auth with Some (Ok v) => Some v | _ => None end in
    if existsb is_bad_component path then Err BadRequestPath_return
    else if has_root path then Err BadRequestPath_return
    else
      match path_to_str path with
      | None => Err InvalidUTF8_return
      | Some str_path =>
        let str_path := strip_slashes str_path in
        match config with
        | Err e => Err e
        | Ok config =>
          if negb (bool_decide (config.(upstreams) = [])) then Err REMOTES_FORBIDDEN
          else
            match check_auth bcrypt_verify config Put auth str_path with
            | Err err => Err err
            | Ok _ => parse path
            end
        end
      end
  end.
End Prelude.

End PutRoute.

Module Samples.
Import Repo.

Definition repo_with (ups : list Upstream) (tok : gmap string Token) : Repository :=
  mkRepository None None None None None None [] [] [] ∅ ups tok.

(** Two repositories that name each other as [Local] upstreams. *)
Definition cyc_a : Repository := repo_with [Local "b"] ∅.
Definition cyc_b : Repository := repo_with [Local "a"] ∅.
Definition cyc_cache : gmap string Repository :=
  <["a" := cyc_a]> (<["b" := cyc_b]> ∅).

(** A repository config and a main config that both define user [alice]. *)
Definition tok_repo : Repository :=
  repo_with [] {["alice" := mkToken "hash-of-repo" ∅]}.
Definition tok_main : Repository :=
  repo_with [] {["alice" := mkToken "hash-of-main" ∅]}.

(** A stand-in for [DateTime::parse_from_rfc2822] that knows one date
    (nanoseconds since the epoch). *)
Definition sample_rfc2822 (s : string) : result Z string :=
  if String.eqb s "Mon, 01 Jan 2024 00:00:00 +0000"
  then Ok 1704067200000000000%Z else Err "input contains invalid characters".

(** A remote body of two chunks, every I/O step succeeding. *)
Definition remote_sample_io : RemoteM.RemoteIo :=
  RemoteM.mkRemoteIo RemoteM.Created
    (map RemoteM.ChunkOk [[1; 2]; [3]]%Z) (fun _ => true) true true true.

(** A repository with an upstream, whose user [alice] may deploy one file. *)
Definition put_sample_config : Repository :=
  repo_with [Local "other"]
    {["alice" := mkToken "h" {["org/x/1.0/x-1.0.jar" := mkPathAuth true true false]}]}.

End Samples.

(** * Properties *)

Import Repo.

(** ** Repository::merge *)

(** The merge claim read word by word: every header and every map entry of
    both inputs is present, and each scalar [Option] prefers [self]. *)
Definition merge_claim (self main : Repository) : Prop :=
  let m := merge self main in
  (∀ h, In h self.(cache_control_file) ∨ In h main.(cache_control_file) →
        In h m.(cache_control_file)) ∧
  (∀ h, In h self.(cache_control_metadata) ∨ In h main.(cache_control_metadata) →
        In h m.(cache_control_metadata)) ∧
  (∀ h, In h self.(cache_control_dir_listings) ∨ In h main.(cache_control_dir_listings) →
        In h m.(cache_control_dir_listings)) ∧
  (∀ k v, self.(cache_control_status_code) !! k = Some v ∨
          main.(cache_control_status_code) !! k = Some v →
          m.(cache_control_status_code) !! k = Some v) ∧
  (∀ k v, self.(tokens) !! k = Some v ∨ main.(tokens) !! k = Some v →
          m.(tokens) !! k = Some v) ∧
  m.(stores_remote_upstream) =
    option_or self.(stores_remote_upstream) main.(stores_remote_upstream) ∧
  m.(publicly_readable) = option_or self.(publicly_readable) main.(publicly_readable) ∧
  m.(hide_directory_listings) =
    option_or self.(hide_directory_listings) main.(hide_directory_listings) ∧
  m.(infer_content_type_on_file_extension) =
    option_or self.(infer_content_type_on_file_extension)
              main.(infer_content_type_on_file_extension) ∧
  m.(time_fresh) = option_or self.(time_fresh) main.(time_fresh) ∧
  m.(max_file_size) = option_or self.(max_file_size) main.(max_file_size).

(** C8 (counterexample): when the repository config and the main config
    both define the user [alice], the merged token map holds the main
    config's token, so the repository's own entry is not present. *)
Lemma merge_token_collision_loses_self_entry :
  ¬ merge_claim Samples.tok_repo Samples.tok_main.
Proof.
  intros (_ & _ & _ & _ & Htok & _).
  specialize (Htok "alice" (mkToken "hash-of-repo" ∅) (or_introl eq_refl)).
  vm_compute in Htok. discriminate Htok.
Qed.

Lemma hashmap_extend_lookup {K V} `{Countable K} (self other : gmap K V) k :
  hashmap_extend self other !! k =
    match other !! k with Some v => Some v | None => self !! k end.
Proof.
  unfold hashmap_extend. rewrite lookup_union.
  destruct (other !! k), (self !! k); reflexivity.
Qed.

(** C8 (amended): [merge self main] keeps every header of both inputs
    (self's first), every key of both maps (main's value on a shared key,
    self's value otherwise), and for [stores_remote_upstream],
    [publicly_readable], [hide_directory_listings],
    [infer_content_type_on_file_extension] and [max_file_size] takes
    self's value when it is [Some], main's otherwise. *)
Theorem merge_additive_and_prefers_self (self main : Repository) :
  let m := merge self main in
  m.(cache_control_file) = app self.(cache_control_file) main.(cache_control_file) ∧
  m.(cache_control_metadata) =
    app self.(cache_control_metadata) main.(cache_control_metadata) ∧
  m.(cache_control_dir_listings) =
    app self.(cache_control_dir_listings) main.(cache_control_dir_listings) ∧
  (∀ h, In h m.(cache_control_file) ↔
        In h self.(cache_control_file) ∨ In h main.(cache_control_file)) ∧
  (∀ h, In h m.(cache_control_metadata) ↔
        In h self.(cache_control_metadata) ∨ In h main.(cache_control_metadata)) ∧
  (∀ h, In h m.(cache_control_dir_listings) ↔
        In h self.(cache_control_dir_listings) ∨ In h main.(cache_control_dir_listings)) ∧
  (∀ k, is_Some (m.(cache_control_status_code) !! k) ↔
        is_Some (self.(cache_control_status_code) !! k) ∨
        is_Some (main.(cache_control_status_code) !! k)) ∧
  (∀ k v, main.(cache_control_status_code) !! k = Some v →
          m.(cache_control_status_code) !! k = Some v) ∧
  (∀ k, main.(cache_control_status_code) !! k = None →
        m.(cache_control_status_code) !! k = self.(cache_control_status_code) !! k) ∧
  (∀ k, is_Some (m.(tokens) !! k) ↔
        is_Some (self.(tokens) !! k) ∨ is_Some (main.(tokens) !! k)) ∧
  (∀ k v, main.(tokens) !! k = Some v → m.(tokens) !! k = Some v) ∧
  (∀ k, main.(tokens) !! k = None → m.(tokens) !! k = self.(tokens) !! k) ∧
  m.(stores_remote_upstream) =
    option_or self.(stores_remote_upstream) main.(stores_remote_upstream) ∧
  m.(publicly_readable) = option_or self.(publicly_readable) main.(publicly_readable) ∧
  m.(hide_directory_listings) =
    option_or self.(hide_directory_listings) main.(hide_directory_listings) ∧
  m.(infer_content_type_on_file_extension) =
    option_or self.(infer_content_type_on_file_extension)
              main.(infer_content_type_on_file_extension) ∧
  m.(max_file_size) = option_or self.(max_file_size) main.(max_file_size).
Proof.
  cbn zeta. unfold merge, vec_extend; cbn [cache_control_file cache_control_metadata
    cache_control_dir_listings cache_control_status_code tokens
    stores_remote_upstream publicly_readable hide_directory_listings
    infer_content_type_on_file_extension max_file_size].
  split_and!; try reflexivity; try (intros h; apply in_app_iff);
    try (intros k; rewrite !hashmap_extend_lookup;
         destruct (_ !! k), (_ !! k); unfold is_Some; naive_solver);
    intros k ? ; rewrite !hashmap_extend_lookup; try intros; simplify_eq;
    repeat case_match; simplify_eq; done.
Qed.

(** ** Repository::check_auth *)

(** C9: when [publicly_readable] is unset or [true], [check_auth] for a GET
    is [Ok false] whatever the credentials, the token table and the
    password verifier are. *)
Theorem check_auth_public_get_ignores_credentials
    (bv1 bv2 : string -> string -> result bool string) (r : Repository)
    (a1 a2 : option BasicAuthentication) (path : string)
    (Hpub : r.(publicly_readable) = None ∨ r.(publicly_readable) = Some true) :
  check_auth bv1 r Get a1 path = check_auth bv2 r Get a2 path ∧
  check_auth bv1 r Get a1 path = Ok false.
Proof.
  unfold check_auth.
  destruct Hpub as [Hp | Hp]; rewrite Hp; simpl; split; reflexivity.
Qed.

Lemma check_auth_public_get_ignores_credentials_witness :
  Samples.tok_repo.(publicly_readable) = None ∧
  check_auth (fun _ _ => Ok true) Samples.tok_repo Get None "org/lib" =
    check_auth (fun _ _ => Err "bad hash") Samples.tok_repo Get
      (Some (mkAuth "alice" "secret")) "org/lib" ∧
  check_auth (fun _ _ => Ok true) Samples.tok_repo Get None "org/lib" = Ok false.
Proof.
  split; [reflexivity |].
  apply (check_auth_public_get_ignores_credentials
           (fun _ _ => Ok true) (fun _ _ => Err "bad hash") Samples.tok_repo
           None (Some (mkAuth "alice" "secret")) "org/lib").
  left. reflexivity.
Defined.

(** ** get_repo_look_locations *)

(** C7: for the repositories [a] and [b] naming each other as [Local]
    upstreams (both configs cached), the expansion from [a] terminates and
    lists [a], [b], then [a] again: the root is never put into [visited],
    so it is listed a second time when [b] names it. *)
Theorem look_locations_cycle_lists_root_twice :
  Look.get_repo_look_locations ∅ 10 Samples.cyc_cache "a" Samples.cyc_a =
    Some ([("a", Samples.cyc_a); ("b", Samples.cyc_b); ("a", Samples.cyc_a)], []) ∧
  ¬ NoDup (map fst [("a", Samples.cyc_a); ("b", Samples.cyc_b); ("a", Samples.cyc_a)]).
Proof.
  split.
  - vm_compute. reflexivity.
  - simpl. intros Hnd. apply NoDup_cons in Hnd as [Hnin _].
    apply Hnin. apply elem_of_cons. right. apply elem_of_cons. left. reflexivity.
Qed.

(** ** Combining the per-repository lookups *)

Module ResolveGetFacts.
Import ResolveGet.

Lemma loop_listing o errs ts :
  fst (check_result_loop (Some (DirListing o)) errs ts) =
    Some (DirListing (listing_run o (positives ts))).
Proof.
  revert o errs. induction ts as [| [v | es |] ts IH]; intros o errs; simpl.
  - reflexivity.
  - destruct v; simpl; [reflexivity | reflexivity | apply IH].
  - apply IH.
  - apply IH.
Qed.

Lemma loop_other p errs ts :
  (∀ e, p ≠ DirListing e) →
  fst (check_result_loop (Some p) errs ts) = Some p.
Proof.
  intros Hp. revert errs. induction ts as [| [v | es |] ts IH]; intros errs; simpl.
  - reflexivity.
  - destruct p; [reflexivity | reflexivity |]. exfalso. eapply Hp. reflexivity.
  - apply IH.
  - apply IH.
Qed.

Lemma check_result_first_wins errs ts :
  fst (check_result errs ts) = first_wins (positives ts).
Proof.
  unfold check_result. revert errs.
  induction ts as [| [v | es |] ts IH]; intros errs; simpl.
  - reflexivity.
  - destruct v as [n | n | e].
    + apply loop_other. discriminate.
    + apply loop_other. discriminate.
    + apply loop_listing.
  - apply IH.
  - apply IH.
Qed.

End ResolveGetFacts.

Module ResolveImplFacts.
Import ResolveImpl.

Lemma impl_loop_listing m e errs ts :
  fst (check_result_loop (Some (DirListing m e)) errs ts) =
    listing_run m e (positives ts).
Proof.
  revert m e errs. induction ts as [| [v | es |] ts IH]; intros m e errs; simpl.
  - reflexivity.
  - destruct v; simpl; try reflexivity. apply IH.
  - apply IH.
  - apply IH.
Qed.

Lemma impl_loop_other p errs ts :
  (∀ m e, p ≠ DirListing m e) →
  fst (check_result_loop (Some p) errs ts) =
    match positives ts with IsADir :: _ => Some IsADir | _ => Some p end.
Proof.
  intros Hp. revert errs. induction ts as [| [v | es |] ts IH]; intros errs; simpl.
  - reflexivity.
  - destruct v; destruct p; try reflexivity; exfalso; eapply Hp; reflexivity.
  - apply IH.
  - apply IH.
Qed.

Lemma impl_check_result_first_wins errs ts :
  fst (check_result errs ts) = first_wins (positives ts).
Proof.
  unfold check_result. revert errs.
  induction ts as [| [v | es |] ts IH]; intros errs; simpl.
  - reflexivity.
  - destruct v as [n | n | m e |].
    + rewrite impl_loop_other by discriminate.
      destruct (positives ts) as [| [] ?]; reflexivity.
    + rewrite impl_loop_other by discriminate.
      destruct (positives ts) as [| [] ?]; reflexivity.
    + apply impl_loop_listing.
    + reflexivity.
  - apply IH.
  - apply IH.
Qed.

End ResolveImplFacts.

(** C1 (counterexample): a directory listing completes first, then a file
    is found in another repository; the combined outcome is the
    accumulated listing, not the file. *)
Lemma check_result_listing_then_file :
  fst (ResolveGet.check_result []
         [TaskOk (ResolveGet.DirListing {["a"]}); TaskOk (ResolveGet.Mmap 1)]) =
    Some (ResolveGet.DirListing {["a"]}) ∧
  fst (ResolveGet.check_result []
         [TaskOk (ResolveGet.DirListing {["a"]}); TaskOk (ResolveGet.Mmap 1)]) ≠
    Some (ResolveGet.Mmap 1).
Proof.
  split; [reflexivity | simpl; discriminate].
Qed.

(** C1 (amended): in both combine loops the outcome is determined by the
    positive results in completion order: the first one wins; when it is a
    listing, the listings completing right after it are merged into it and
    the first later result of another kind stops the loop and the merged
    listing is returned; in [resolve_impl] an [IsADir] completing before the
    loop stops wins. Errors and panics do not affect the outcome. *)
Theorem check_result_first_completion_wins :
  (∀ errs ts, fst (ResolveGet.check_result errs ts) =
                ResolveGet.first_wins (ResolveGet.positives ts)) ∧
  (∀ errs ts, fst (ResolveImpl.check_result errs ts) =
                ResolveImpl.first_wins (ResolveImpl.positives ts)).
Proof.
  split; intros.
  - apply ResolveGetFacts.check_result_first_wins.
  - apply ResolveImplFacts.impl_check_result_first_wins.
Qed.

(** ** PathInfo::parse *)

Module PathInfoFacts.
Import PathInfoM.

Lemma components_loop_group f v a grp l :
  components_loop (map Normal l) (Some f, Some v, Some a, grp) =
    Ok (Some f, Some v, Some a, app grp l).
Proof.
  revert grp. induction l as [| x l IH]; intros grp; simpl.
  - rewrite app_nil_r. reflexivity.
  - rewrite IH, <- app_assoc. reflexivity.
Qed.

Lemma components_loop_path g a v f :
  components_loop (rev (map Normal (app g [a; v; f]))) (None, None, None, []) =
    Ok (Some f, Some v, Some a, rev g).
Proof.
  rewrite map_app, rev_app_distr. simpl.
  rewrite <- map_rev. apply components_loop_group.
Qed.

End PathInfoFacts.

(** C3: [PathInfo::parse] never looks at the file-name component: for
    every path [g/a/v/f] of normal components the result is the one for
    [g/a/v/v], the version taking the file name's place; so the Maven path
    [org/example/lib/1.0/lib-1.0.jar] is rejected with 400 "File didn't
    begin with artifact-id" instead of giving the file name [lib-1.0.jar]. *)
Theorem parse_takes_file_name_from_version :
  (∀ g a v f,
     PathInfoM.parse (map PathInfoM.Normal (app g [a; v; f])) =
       PathInfoM.parse (map PathInfoM.Normal (app g [a; v; v]))) ∧
  PathInfoM.parse
    (map PathInfoM.Normal ["org"; "example"; "lib"; "1.0"; "lib-1.0.jar"]) =
    Err (PathInfoM.bad_request "File didn't begin with artifact-id").
Proof.
  split.
  - intros g a v f. unfold PathInfoM.parse.
    rewrite !PathInfoFacts.components_loop_path. reflexivity.
  - vm_compute. reflexivity.
Qed.

(** ** The PUT size limit *)

Module PutFacts.
Import PutM.

Lemma copy_unlimited limit body f h total :
  (0 < limit)%N →
  copy body (mkWriteFile f limit 0 h) total =
    (Ok (total + length (concat body))%nat,
     mkWriteFile (app f (concat body)) limit 0 (app h (concat body))).
Proof.
  intros Hl. revert f h total.
  induction body as [| chunk body IH]; intros f h total; simpl.
  - rewrite !app_nil_r, Nat.add_0_r. reflexivity.
  - destruct chunk as [| b chunk]; [apply IH |].
    unfold poll_write. simpl.
    destruct (limit <=? 0)%N eqn:E; [apply N.leb_le in E; lia |].
    rewrite firstn_all, IH. simpl.
    rewrite length_app, <- !app_assoc. simpl.
    f_equal. f_equal. lia.
Qed.

End PutFacts.

(** C4: for every positive limit and every request body, whatever its
    size, the PUT writer accepts the whole body: [put_file]'s copy step
    succeeds with every byte written to the file and fed to the hashers,
    and the byte counter [read] is still 0, so no 413 is produced. *)
Theorem put_file_write_ignores_limit (limit : N) (body : list (list Z))
    (Hlimit : (0 < limit)%N) :
  PutM.put_file_write limit body =
    Ok (PutM.mkWriteFile (concat body) limit 0 (concat body)).
Proof.
  unfold PutM.put_file_write. rewrite PutFacts.copy_unlimited by exact Hlimit.
  reflexivity.
Qed.

Lemma put_file_write_ignores_limit_witness :
  (0 < 4)%N ∧
  PutM.put_file_write 4 [[1; 2; 3; 4]; [5; 6; 7; 8]]%Z =
    Ok (PutM.mkWriteFile [1; 2; 3; 4; 5; 6; 7; 8]%Z 4 0 [1; 2; 3; 4; 5; 6; 7; 8]%Z).
Proof.
  split; [lia |].
  apply (put_file_write_ignores_limit 4 [[1; 2; 3; 4]; [5; 6; 7; 8]]%Z). lia.
Defined.

(** ** Failures after the cache file is created *)

(** C5: once the local cache file exists, a body read error, the size
    limit being reached, a failed seek and a failed exclusive lock all
    return an error with the file still on disk; only write and flush
    failures remove it. *)
Theorem remote_failures_keep_partial_file (io : RemoteM.RemoteIo) (path : string)
    (limit : N) (fs : RemoteM.Fs)
    (Hcreated : io.(RemoteM.create) = RemoteM.Created) :
  (∀ rest, io.(RemoteM.chunks) = RemoteM.ChunkErr :: rest →
     RemoteM.serve_remote_store io path limit fs =
       (Err [UpstreamBodyReadError], {[path]} ∪ fs)) ∧
  (∀ b rest, io.(RemoteM.chunks) = RemoteM.ChunkOk b :: rest →
     (limit <= N.of_nat (length b))%N →
     RemoteM.serve_remote_store io path limit fs =
       (Err [UpstreamFileTooLarge], {[path]} ∪ fs)) ∧
  (io.(RemoteM.chunks) = [] → io.(RemoteM.shutdown_ok) = true →
     io.(RemoteM.seek_ok) = false →
     RemoteM.serve_remote_store io path limit fs =
       (Err [FileSeekFailed], {[path]} ∪ fs)) ∧
  (RemoteM.serve_remote_store (RemoteM.mkRemoteIo RemoteM.LockFailedAfterCreate
       io.(RemoteM.chunks) io.(RemoteM.write_all_ok) io.(RemoteM.shutdown_ok)
       io.(RemoteM.seek_ok) io.(RemoteM.relock_ok)) path limit fs =
     (Err [FileCreateFailed], {[path]} ∪ fs)) ∧
  path ∈ ({[path]} ∪ fs : RemoteM.Fs).
Proof.
  unfold RemoteM.serve_remote_store. rewrite Hcreated.
  split_and!.
  - intros rest Hc. rewrite Hc. reflexivity.
  - intros b rest Hc Hl. rewrite Hc. simpl.
    rewrite N.add_0_l.
    destruct (limit <=? N.of_nat (length b))%N eqn:E; [reflexivity |].
    apply N.leb_gt in E. lia.
  - intros Hc Hs Hk. rewrite Hc, Hs, Hk. reflexivity.
  - reflexivity.
  - set_solver.
Qed.

Lemma remote_failures_keep_partial_file_witness :
  RemoteM.create (RemoteM.mkRemoteIo RemoteM.Created [RemoteM.ChunkErr]
                    (fun _ => true) true true true) = RemoteM.Created ∧
  RemoteM.serve_remote_store
    (RemoteM.mkRemoteIo RemoteM.Created [RemoteM.ChunkErr] (fun _ => true) true true true)
    "org/lib/1.0/lib-1.0.jar" 100 ∅ =
    (Err [UpstreamBodyReadError], {["org/lib/1.0/lib-1.0.jar"]} ∪ ∅).
Proof.
  split; [reflexivity |].
  apply (proj1 (remote_failures_keep_partial_file
                  (RemoteM.mkRemoteIo RemoteM.Created [RemoteM.ChunkErr]
                     (fun _ => true) true true true)
                  "org/lib/1.0/lib-1.0.jar" 100 ∅ eq_refl) []).
  reflexivity.
Defined.

(** ** Conditional GET *)

(** C6: a GET with one [If-Modified-Since] header whose time equals the
    file's modification time is answered 200 with the file, not 304: the
    304 branch needs the header time to be strictly later. *)
Theorem if_modified_since_equal_time_is_200
    (tag_matches : Cond.ETag -> bool) (parse_from_rfc2822 : string -> result Z string)
    (to_rfc2822 : Z -> string) (server_timing : string)
    (hash : list Z) (mtime : Z) (i : string)
    (Hparse : parse_from_rfc2822 i = Ok mtime) :
  Cond.serve_mmap tag_matches parse_from_rfc2822 to_rfc2822 server_timing
    hash mtime [("If-Modified-Since", i)] =
    mkReturn 200 CMmap Binary
      (Some [("ETag", Cond.etag_value hash); ("Last-Modified", to_rfc2822 mtime);
             ("Server-Timing", server_timing)]).
Proof.
  unfold Cond.serve_mmap. simpl.
  rewrite Hparse, Z.ltb_irrefl. reflexivity.
Qed.

Lemma if_modified_since_equal_time_is_200_witness :
  Samples.sample_rfc2822 "Mon, 01 Jan 2024 00:00:00 +0000" = Ok 1704067200000000000%Z ∧
  Cond.serve_mmap (fun _ => false) Samples.sample_rfc2822 (fun _ => "Mon, 1 Jan 2024 00:00:00 +0000")
    "condHeader;dur=0.1" (repeat 0%Z 32) 1704067200000000000%Z
    [("If-Modified-Since", "Mon, 01 Jan 2024 00:00:00 +0000")] =
    mkReturn 200 CMmap Binary
      (Some [("ETag", Cond.etag_value (repeat 0%Z 32));
             ("Last-Modified", "Mon, 1 Jan 2024 00:00:00 +0000");
             ("Server-Timing", "condHeader;dur=0.1")]).
Proof.
  split; [reflexivity |].
  apply (if_modified_since_equal_time_is_200 (fun _ => false) Samples.sample_rfc2822
           (fun _ => "Mon, 1 Jan 2024 00:00:00 +0000") "condHeader;dur=0.1"
           (repeat 0%Z 32) 1704067200000000000%Z "Mon, 01 Jan 2024 00:00:00 +0000").
  reflexivity.
Defined.

(** ** The ETag of a served file *)

Module StrFacts.

Lemma slen_app (s t : string) : String.length (s ++ t) = (String.length s + String.length t)%nat.
Proof. induction s as [| c s IH]; [reflexivity | exact (f_equal S IH)]. Qed.

Lemma sapp_assoc (s t u : string) : (s ++ t) ++ u = s ++ (t ++ u).
Proof. induction s as [| c s IH]; [reflexivity | exact (f_equal (String c) IH)]. Qed.

Lemma sapp_nil_r (s : string) : s ++ "" = s.
Proof. induction s as [| c s IH]; [reflexivity | exact (f_equal (String c) IH)]. Qed.

End StrFacts.

Module CondFacts.
Import Cond.

Lemma b64_alphabet_get (k : nat) :
  (k < 64)%nat →
  String.length (match String.get k b64_alphabet with
                 | Some c => String c EmptyString
                 | None => EmptyString
                 end) = 1%nat.
Proof.
  intros Hk. do 64 (destruct k as [| k]; [reflexivity |]). lia.
Qed.

Lemma b64_char_length (n : Z) : String.length (b64_char n) = 1%nat.
Proof.
  unfold b64_char. apply b64_alphabet_get.
  change 63%Z with (Z.ones 6). rewrite Z.land_ones by lia.
  change (2 ^ 6)%Z with 64%Z.
  pose proof (Z.mod_pos_bound n 64 ltac:(lia)). lia.
Qed.

Lemma base64_encode_length (l : list Z) :
  String.length (base64_encode l) = (4 * ((length l + 2) / 3))%nat.
Proof.
  remember (length l) as n eqn:Hn. revert l Hn.
  induction n as [n IH] using lt_wf_ind. intros l Hn.
  destruct l as [| a [| b [| c rest]]]; cbn [base64_encode List.length] in *; subst;
    rewrite ?StrFacts.slen_app, ?b64_char_length; try reflexivity.
  rewrite (IH (length rest)) by lia.
  replace (S (S (S (length rest))) + 2)%nat with ((length rest + 2) + 1 * 3)%nat by lia.
  rewrite Nat.div_add by lia. lia.
Qed.

Lemma base64_encode_padded (l : list Z) :
  (length l mod 3 = 2)%nat → ∃ p, base64_encode l = p ++ "=".
Proof.
  remember (length l) as n eqn:Hn. revert l Hn.
  induction n as [n IH] using lt_wf_ind. intros l Hn Hm.
  destruct l as [| a [| b [| c rest]]]; subst n.
  - discriminate.
  - discriminate.
  - cbn [base64_encode].
    match goal with |- ∃ p, ?x ++ ?y ++ ?z ++ "=" = _ => exists (x ++ y ++ z) end.
    rewrite !StrFacts.sapp_assoc. reflexivity.
  - assert (Hr : (length rest mod 3 = 2)%nat).
    { cbn [List.length] in Hm. rewrite <- (Nat.Div0.mod_add (length rest) 1 3).
      replace (length rest + 1 * 3)%nat with (S (S (S (length rest)))) by lia.
      exact Hm. }
    destruct (IH (length rest) ltac:(cbn [List.length]; lia) rest eq_refl Hr) as [p Hp].
    cbn [base64_encode]. rewrite Hp.
    match goal with
    |- ∃ q, ?x ++ ?y ++ ?z ++ ?w ++ p ++ "=" = _ => exists (x ++ y ++ z ++ w ++ p)
    end.
    rewrite !StrFacts.sapp_assoc. reflexivity.
Qed.

Section Loops.
Variable tag_matches : ETag -> bool.
Variable parse_from_rfc2822 : string -> result Z string.
Variable server_timing : string.

Lemma if_none_match_loop_err vals s c r :
  if_none_match_loop tag_matches server_timing vals s c = Err r → r.(status) = 400%N.
Proof.
  revert s c. induction vals as [| i vals IH]; intros s c; simpl; [discriminate |].
  destruct (ETagValidator_parse i) as [[| v] |]; [discriminate | | ].
  - destruct (existsb tag_matches v); apply IH.
  - intros H. injection H as <-. reflexivity.
Qed.

Lemma if_match_loop_err vals b r :
  if_match_loop tag_matches server_timing vals b = Err r → r.(status) = 400%N.
Proof.
  revert b. induction vals as [| i vals IH]; intros b; simpl; [discriminate |].
  destruct (ETagValidator_parse i) as [[| v] |]; [discriminate | apply IH |].
  intros H. injection H as <-. reflexivity.
Qed.

Lemma if_modified_since_loop_some vals m hm ct r :
  if_modified_since_loop parse_from_rfc2822 server_timing vals m hm ct = Some r →
  r.(header_map) = Some (app hm [st_header server_timing]) ∨ r.(status) = 400%N.
Proof.
  induction vals as [| i vals IH]; simpl; [discriminate |].
  destruct (parse_from_rfc2822 i) as [t | e].
  - destruct (m <? t)%Z; [intros H; injection H as <-; left; reflexivity | apply IH].
  - intros H. injection H as <-. right. reflexivity.
Qed.

Lemma if_unmodified_since_loop_some vals m hm ct r :
  if_unmodified_since_loop parse_from_rfc2822 server_timing vals m hm ct = Some r →
  r.(header_map) = Some (app hm [st_header server_timing]) ∨ r.(status) = 400%N.
Proof.
  induction vals as [| i vals IH]; simpl; [discriminate |].
  destruct (parse_from_rfc2822 i) as [t | e].
  - destruct (t <=? m)%Z; [intros H; injection H as <-; left; reflexivity | apply IH].
  - intros H. injection H as <-. right. reflexivity.
Qed.
End Loops.

(** Every response of [serve_mmap] carries the ETag and Last-Modified
    headers followed by Server-Timing, except the 400 answers to malformed
    headers and the 412 answer to a failed [If-Match]. *)
Lemma serve_mmap_headers tm p2 t2 st hash mtime req :
  let r := serve_mmap tm p2 t2 st hash mtime req in
  r.(header_map) =
    Some [("ETag", etag_value hash); ("Last-Modified", t2 mtime); ("Server-Timing", st)] ∨
  r.(status) = 400%N ∨ r.(status) = 412%N.
Proof.
  cbn zeta. unfold serve_mmap.
  destruct (if_none_match_loop tm st _ 200 None) as [[s c] | e] eqn:Einm;
    [| right; left; eapply if_none_match_loop_err; exact Einm].
  destruct (req_contains "If-Match" req).
  - destruct (if_match_loop tm st _ false) as [[|] | e] eqn:Eim.
    + (* falls through *) idtac.
      destruct (req_contains "If-Unmodified-Since" req || _) eqn:Eb; [| left; reflexivity].
      destruct (if negb _ then _ else _) as [r |] eqn:Eims.
      * destruct (negb (Nat.eqb (length (req_get "If-None-Match" req)) 0)); [discriminate |].
        destruct (if_modified_since_loop_some p2 st _ _ _ _ _ Eims) as [H | H]; auto.
      * destruct (if_unmodified_since_loop p2 st _ _ _ _) as [r |] eqn:Eius; [| left; reflexivity].
        destruct (if_unmodified_since_loop_some p2 st _ _ _ _ _ Eius) as [H | H]; auto.
    + right; right; reflexivity.
    + right; left. eapply if_match_loop_err; exact Eim.
  - destruct (req_contains "If-Unmodified-Since" req || _) eqn:Eb; [| left; reflexivity].
    destruct (if negb _ then _ else _) as [r |] eqn:Eims.
    + destruct (negb (Nat.eqb (length (req_get "If-None-Match" req)) 0)); [discriminate |].
      destruct (if_modified_since_loop_some p2 st _ _ _ _ _ Eims) as [H | H]; auto.
    + destruct (if_unmodified_since_loop p2 st _ _ _ _) as [r |] eqn:Eius; [| left; reflexivity].
      destruct (if_unmodified_since_loop_some p2 st _ _ _ _ _ Eius) as [H | H]; auto.
Qed.

End CondFacts.

(** C2: whenever a memory-mapped file with a 32-byte BLAKE3 digest [hash]
    is served (status 200 or 304), the response has exactly one ETag
    header, whose value is a double quote, [blake3-], the standard base64
    encoding of [hash] (44 characters, ending in the [=] pad) and a double
    quote. *)
Theorem served_file_etag_is_quoted_blake3_base64
    (tag_matches : Cond.ETag -> bool) (parse_from_rfc2822 : string -> result Z string)
    (to_rfc2822 : Z -> string) (server_timing : string)
    (hash : list Z) (mtime : Z) (req : list (string * string))
    (Hlen : length hash = 32%nat)
    (Hserved : let r := Cond.serve_mmap tag_matches parse_from_rfc2822 to_rfc2822
                          server_timing hash mtime req in
               r.(status) = 200%N ∨ r.(status) = 304%N) :
  ∃ hm,
    (Cond.serve_mmap tag_matches parse_from_rfc2822 to_rfc2822 server_timing
       hash mtime req).(header_map) = Some hm ∧
    Cond.req_get "ETag" hm = [Cond.etag_value hash] ∧
    Cond.etag_value hash =
      Cond.dquote ++ "blake3-" ++ Cond.base64_encode hash ++ Cond.dquote ∧
    String.length (Cond.base64_encode hash) = 44%nat ∧
    (∃ p, Cond.base64_encode hash = p ++ "=").
Proof.
  cbn zeta in Hserved.
  destruct (CondFacts.serve_mmap_headers tag_matches parse_from_rfc2822 to_rfc2822
              server_timing hash mtime req) as [H | [H | H]];
    [| rewrite H in Hserved; destruct Hserved; discriminate
     | rewrite H in Hserved; destruct Hserved; discriminate].
  eexists. split; [exact H |]. split; [reflexivity |]. split; [reflexivity |].
  split.
  - rewrite CondFacts.base64_encode_length, Hlen. reflexivity.
  - apply CondFacts.base64_encode_padded. rewrite Hlen. reflexivity.
Qed.

Lemma served_file_etag_is_quoted_blake3_base64_witness :
  length (repeat 0%Z 32) = 32%nat ∧
  (Cond.serve_mmap (fun _ => false) (fun _ => Err "unused") (fun _ => "Mon, 1 Jan 2024 00:00:00 +0000")
     "condHeader;dur=0.1" (repeat 0%Z 32) 0 []).(status) = 200%N ∧
  Cond.req_get "ETag"
    [("ETag", Cond.etag_value (repeat 0%Z 32));
     ("Last-Modified", "Mon, 1 Jan 2024 00:00:00 +0000");
     ("Server-Timing", "condHeader;dur=0.1")] =
    [Cond.etag_value (repeat 0%Z 32)].
Proof.
  split; [reflexivity |]. split; [reflexivity |].
  destruct (served_file_etag_is_quoted_blake3_base64 (fun _ => false) (fun _ => Err "unused")
              (fun _ => "Mon, 1 Jan 2024 00:00:00 +0000") "condHeader;dur=0.1"
              (repeat 0%Z 32) 0 [] eq_refl (or_introl eq_refl))
    as (hm & Hhm & Hget & _).
  vm_compute in Hhm. injection Hhm as <-. exact Hget.
Defined.

(** ** Malformed If-None-Match validators *)

Module StripFacts.

Lemma strip_prefix_some (p s r : string) : Str.strip_prefix p s = Some r → s = p ++ r.
Proof.
  revert s. induction p as [| a p IH]; intros s H.
  - injection H as <-. reflexivity.
  - destruct s as [| b s]; [discriminate |]. cbn in H.
    destruct (Ascii.eqb_spec a b) as [<- |]; [| discriminate].
    rewrite (IH s H). reflexivity.
Qed.

Lemma list_ascii_of_string_app (s t : string) :
  list_ascii_of_string (s ++ t) = app (list_ascii_of_string s) (list_ascii_of_string t).
Proof. induction s as [| c s IH]; [reflexivity | exact (f_equal (cons c) IH)]. Qed.

Lemma string_of_list_ascii_app (l m : list ascii) :
  string_of_list_ascii (app l m) = string_of_list_ascii l ++ string_of_list_ascii m.
Proof. induction l as [| c l IH]; [reflexivity | exact (f_equal (String c) IH)]. Qed.

Lemma srev_srev (s : string) : Str.srev (Str.srev s) = s.
Proof.
  unfold Str.srev. rewrite list_ascii_of_string_of_list_ascii, rev_involutive.
  apply string_of_list_ascii_of_string.
Qed.

Lemma srev_app (s t : string) : Str.srev (s ++ t) = Str.srev t ++ Str.srev s.
Proof.
  unfold Str.srev. rewrite list_ascii_of_string_app, rev_app_distr.
  apply string_of_list_ascii_app.
Qed.

Lemma strip_suffix_some (p s r : string) : Str.strip_suffix p s = Some r → s = r ++ p.
Proof.
  unfold Str.strip_suffix.
  destruct (Str.strip_prefix (Str.srev p) (Str.srev s)) as [r' |] eqn:E; [| discriminate].
  intros H. injection H as <-.
  apply strip_prefix_some in E.
  rewrite <- (srev_srev s), E, srev_app, srev_srev. reflexivity.
Qed.

Lemma ETag_parse_quoted (x : string) (t : Cond.ETag) :
  Cond.ETag_parse x = Some t → Cond.etag_quoted x.
Proof.
  unfold Cond.ETag_parse, Cond.etag_quoted.
  destruct (Str.strip_prefix "W/" x) as [w |]; cbn [default];
    destruct (Str.strip_prefix Cond.dquote _) as [u |] eqn:E1; cbn; try discriminate;
    destruct (Str.strip_suffix Cond.dquote u) as [v |] eqn:E2; try discriminate;
    intros _; exists v;
    apply strip_prefix_some in E1; apply strip_suffix_some in E2;
    rewrite E1, E2; reflexivity.
Qed.

Lemma parse_pieces_none (pieces : list string) (e : string) :
  In e pieces → ¬ Cond.etag_quoted (default e (Str.strip_prefix " " e)) →
  Cond.parse_pieces pieces = None.
Proof.
  induction pieces as [| x pieces IH]; intros Hin Hq; [destruct Hin |].
  cbn [Cond.parse_pieces].
  destruct Hin as [<- | Hin].
  - destruct (Cond.ETag_parse _) as [t |] eqn:E; [| reflexivity].
    exfalso. apply Hq. eapply ETag_parse_quoted. exact E.
  - rewrite (IH Hin Hq). destruct (Cond.ETag_parse _); reflexivity.
Qed.

Lemma if_none_match_loop_bad tm st pre v post s c :
  (∀ x, In x pre → ∃ ts, Cond.ETagValidator_parse x = Some (Cond.Tags ts)) →
  Cond.ETagValidator_parse v = None →
  Cond.if_none_match_loop tm st (app pre (v :: post)) s c =
    Err (mkReturn 400 (CString ("Bad If-None-Match header: " ++ v)) Text
           (Some [Cond.st_header st])).
Proof.
  revert s c. induction pre as [| x pre IH]; intros s c Hpre Hv; cbn [app].
  - cbn. rewrite Hv. reflexivity.
  - destruct (Hpre x (or_introl eq_refl)) as [ts Hts].
    cbn. rewrite Hts.
    destruct (existsb tm ts); apply IH; auto; intros y Hy; apply Hpre; right; exact Hy.
Qed.

End StripFacts.

(** C10 (counterexample): with the two If-None-Match headers [*] and
    [abc], the second of which is not a valid validator, the response is
    304, not 400: the loop stops at [*]. *)
Lemma if_none_match_star_hides_malformed :
  Cond.ETagValidator_parse "abc" = None ∧
  (Cond.serve_mmap (fun _ => false) (fun _ => Err "unused")
     (fun _ => "Mon, 1 Jan 2024 00:00:00 +0000") "condHeader;dur=0.1"
     (repeat 0%Z 32) 0 [("If-None-Match", "*"); ("If-None-Match", "abc")]).(status) = 304%N.
Proof. split; reflexivity. Qed.

(** C10 (amended): if the If-None-Match values of a request are [pre],
    then [v], then any others, every value in [pre] parses as a list of
    tags, [v] is not [*], and some comma-separated element of [v] (with
    one leading space removed) is not enclosed in double quotes after an
    optional [W/], then the response is 400 with the body
    "Bad If-None-Match header: v" and only the Server-Timing header. *)
Theorem malformed_if_none_match_is_400
    (tag_matches : Cond.ETag -> bool) (parse_from_rfc2822 : string -> result Z string)
    (to_rfc2822 : Z -> string) (server_timing : string)
    (hash : list Z) (mtime : Z) (req : list (string * string))
    (pre : list string) (v : string) (post : list string)
    (Hreq : Cond.req_get "If-None-Match" req = app pre (v :: post))
    (Hpre : ∀ x, In x pre → ∃ ts, Cond.ETagValidator_parse x = Some (Cond.Tags ts))
    (Hstar : v ≠ "*")
    (Hbad : ∃ e, In e (Str.split ","%char v) ∧
                 ¬ Cond.etag_quoted (default e (Str.strip_prefix " " e))) :
  Cond.serve_mmap tag_matches parse_from_rfc2822 to_rfc2822 server_timing
    hash mtime req =
    mkReturn 400 (CString ("Bad If-None-Match header: " ++ v)) Text
      (Some [("Server-Timing", server_timing)]).
Proof.
  destruct Hbad as [e [He Hq]].
  assert (Hv : Cond.ETagValidator_parse v = None).
  { unfold Cond.ETagValidator_parse.
    destruct (String.eqb_spec v "*") as [E | _]; [contradiction |].
    rewrite (StripFacts.parse_pieces_none _ e He Hq). reflexivity. }
  unfold Cond.serve_mmap. cbn zeta. rewrite Hreq.
  rewrite (StripFacts.if_none_match_loop_bad tag_matches server_timing pre v post 200 None
             Hpre Hv).
  reflexivity.
Qed.

Lemma malformed_if_none_match_is_400_witness :
  Cond.req_get "If-None-Match" [("If-None-Match", "abc")] = app [] ("abc" :: []) ∧
  Cond.serve_mmap (fun _ => false) (fun _ => Err "unused")
    (fun _ => "Mon, 1 Jan 2024 00:00:00 +0000") "condHeader;dur=0.1"
    (repeat 0%Z 32) 0 [("If-None-Match", "abc")] =
    mkReturn 400 (CString ("Bad If-None-Match header: " ++ "abc")) Text
      (Some [("Server-Timing", "condHeader;dur=0.1")]).
Proof.
  split; [reflexivity |].
  apply (malformed_if_none_match_is_400 (fun _ => false) (fun _ => Err "unused")
           (fun _ => "Mon, 1 Jan 2024 00:00:00 +0000") "condHeader;dur=0.1"
           (repeat 0%Z 32) 0 [("If-None-Match", "abc")] [] "abc" []).
  - reflexivity.
  - intros x [].
  - discriminate.
  - exists "abc". split; [left; reflexivity |].
    intros [t Ht]. cbn in Ht. inversion Ht.
Defined.

(** * Further properties of the code *)

(** ** Error statuses *)

Module ErrFacts.
Import ErrM.

Lemma allowed_spec (e : GetRepoFileError) :
  get_status_code e ∈ allowed_status_codes e ∧
  500%N ∈ allowed_status_codes e ∧
  (∀ c, c ∈ allowed_status_codes e →
        (N.min (get_status_code e) 500 <= c)%N ∧ (400 <= c < 600)%N).
Proof.
  unfold allowed_status_codes, get_status_code.
  destruct e; cbn [allowed_status_codes_slice head]; split_and!;
    try set_solver;
    intros c Hc; set_unfold in Hc; destruct_or! Hc; subst; try contradiction; lia.
Qed.

Lemma fold_min_spec (l : list N) m :
  fold_right (fun c acc => match acc with
                           | None => Some c
                           | Some m => Some (N.min c m)
                           end) None l = Some m →
  m ∈ l ∧ ∀ c, c ∈ l → (m <= c)%N.
Proof.
  revert m. induction l as [| x l IH]; intros m; cbn [fold_right]; [discriminate |].
  destruct (fold_right _ None l) as [m' |] eqn:E.
  - intros H. injection H as <-. destruct (IH m' eq_refl) as [Hin Hmin].
    split.
    + destruct (N.min_spec x m') as [[_ ->] | [_ ->]]; rewrite elem_of_cons; auto.
    + intros c Hc. rewrite elem_of_cons in Hc. destruct Hc as [-> | Hc]; [lia |].
      specialize (Hmin c Hc). lia.
  - intros H. injection H as <-. destruct l as [| y l].
    + split; [left |]. intros c Hc. rewrite list_elem_of_singleton in Hc. subst. lia.
    + cbn in E. destruct (fold_right _ None l); discriminate.
Qed.

Lemma fold_min_some (l : list N) :
  l ≠ [] → ∃ m, fold_right (fun c acc => match acc with
                                          | None => Some c
                                          | Some m => Some (N.min c m)
                                          end) None l = Some m.
Proof.
  destruct l as [| x l]; [congruence |]. intros _. cbn [fold_right].
  destruct (fold_right _ None l); eauto.
Qed.

Lemma set_min_spec (s : gset N) m :
  set_min s = Some m → m ∈ s ∧ ∀ c, c ∈ s → (m <= c)%N.
Proof.
  unfold set_min. intros H. apply fold_min_spec in H as [Hin Hmin].
  split; [apply elem_of_elements, Hin |].
  intros c Hc. apply Hmin, elem_of_elements, Hc.
Qed.

Lemma set_min_some (s : gset N) c : c ∈ s → ∃ m, set_min s = Some m.
Proof.
  intros Hc. apply fold_min_some. intros E.
  apply (elem_of_elements s c) in Hc. rewrite E in Hc. apply elem_of_nil in Hc. exact Hc.
Qed.

Lemma status_code_loop_spec (s : gset N) v c :
  ∃ t, status_code_loop (Some s) v = Some t ∧
       (c ∈ t ↔ c ∈ s ∧ ∀ e, e ∈ v → c ∈ allowed_status_codes e).
Proof.
  revert s. induction v as [| e v IH]; intros s; cbn [status_code_loop].
  - exists s. split; [reflexivity |]. split; [| tauto].
    intros H. split; [exact H |]. intros e He. apply elem_of_nil in He. contradiction.
  - destruct (IH (s ∩ allowed_status_codes e)) as [t [Ht Hc]].
    exists t. split; [exact Ht |]. rewrite Hc, elem_of_intersection.
    split.
    + intros [[H1 H2] H3]. split; [exact H1 |].
      intros e' He'. rewrite elem_of_cons in He'. destruct He' as [-> | He']; auto.
    + intros [H1 H2]. split_and!; [exact H1 | apply H2; left |].
      intros e' He'. apply H2. right. exact He'.
Qed.

(** The status of a non-empty error list: the least code allowed by all
    of its errors. *)
Lemma error_status_spec (v : list GetRepoFileError) :
  v ≠ [] →
  (∀ e, e ∈ v → error_status v ∈ allowed_status_codes e) ∧
  (∀ c, (∀ e, e ∈ v → c ∈ allowed_status_codes e) → (error_status v <= c)%N).
Proof.
  destruct v as [| e v]; [congruence |]. intros _.
  unfold error_status. cbn [status_code_loop].
  destruct (status_code_loop_spec (allowed_status_codes e) v 500) as [t [Ht H500]].
  rewrite Ht.
  assert (Hmem : ∀ c, c ∈ t ↔ ∀ e', e' ∈ e :: v → c ∈ allowed_status_codes e').
  { intros c. destruct (status_code_loop_spec (allowed_status_codes e) v c)
      as [t' [Ht' Hc]].
    rewrite Ht in Ht'. injection Ht' as <-. rewrite Hc.
    split.
    - intros [H1 H2] e' He'. rewrite elem_of_cons in He'.
      destruct He' as [-> | He']; auto.
    - intros H. split; [apply H; left |]. intros e' He'. apply H. right. exact He'. }
  assert (Ht500 : 500%N ∈ t).
  { apply Hmem. intros e' _. apply allowed_spec. }
  destruct (set_min_some t 500 Ht500) as [m Hm]. rewrite Hm. cbn [default].
  destruct (set_min_spec t m Hm) as [Hin Hmin].
  split.
  - intros e' He'. apply (proj1 (Hmem m) Hin). exact He'.
  - intros c Hc. apply Hmin, Hmem, Hc.
Qed.

End ErrFacts.

(** The status an error reports is one of the statuses it allows; every
    error allows 500, all allowed statuses are HTTP error codes (400 to
    599), and none is below the smaller of the error's own status and
    500. *)
Theorem get_status_code_allowed (e : ErrM.GetRepoFileError) :
  ErrM.get_status_code e ∈ ErrM.allowed_status_codes e ∧
  500%N ∈ ErrM.allowed_status_codes e ∧
  (∀ c, c ∈ ErrM.allowed_status_codes e →
        (N.min (ErrM.get_status_code e) 500 <= c)%N ∧ (400 <= c < 600)%N).
Proof. apply ErrFacts.allowed_spec. Qed.

(** The error response of [get_repo_file] for a non-empty list of errors
    has as status a code that every error of the list allows, and the
    least such code. *)
Theorem error_status_least_common_code (v : list ErrM.GetRepoFileError) :
  v ≠ [] →
  (∀ e, e ∈ v → ErrM.error_status v ∈ ErrM.allowed_status_codes e) ∧
  (∀ c, (∀ e, e ∈ v → c ∈ ErrM.allowed_status_codes e) →
        (ErrM.error_status v <= c)%N).
Proof. apply ErrFacts.error_status_spec. Qed.

Lemma error_status_least_common_code_witness :
  ([ErrM.NotFound; ErrM.FileContainsNoDot] : list ErrM.GetRepoFileError) ≠ [] ∧
  ErrM.error_status [ErrM.NotFound; ErrM.FileContainsNoDot] ∈
    ErrM.allowed_status_codes ErrM.NotFound.
Proof.
  split; [discriminate |].
  apply (error_status_least_common_code [ErrM.NotFound; ErrM.FileContainsNoDot]
           ltac:(discriminate)).
  left.
Defined.

(** An empty error list gives status 500. A list made only of the error
    [e] gives the smaller of [e]'s own status and 500: [e]'s status for
    every error but [UpstreamFileTooLarge], whose allowed codes are 507
    and 500, so that a lone [UpstreamFileTooLarge] is answered with 500
    while its [to_return] would give 507. *)
Theorem error_status_uniform (e : ErrM.GetRepoFileError) (n : nat) :
  ErrM.error_status [] = 500%N ∧
  ErrM.error_status (repeat e (S n)) = N.min (ErrM.get_status_code e) 500 ∧
  ErrM.error_status [ErrM.UpstreamFileTooLarge 0] = 500%N ∧
  ErrM.get_status_code (ErrM.UpstreamFileTooLarge 0) = 507%N.
Proof.
  split_and!; [reflexivity | | vm_compute; reflexivity | reflexivity].
  destruct (ErrFacts.error_status_spec (repeat e (S n)) ltac:(discriminate))
    as [Hin Hmin].
  destruct (ErrFacts.allowed_spec e) as [Hs [H500 Hl]].
  assert (Hm : N.min (ErrM.get_status_code e) 500 ∈ ErrM.allowed_status_codes e).
  { destruct (N.min_spec (ErrM.get_status_code e) 500) as [[_ ->] | [_ ->]]; assumption. }
  apply N.le_antisymm.
  - apply Hmin. intros e' He'. apply list_elem_of_In, repeat_spec in He'. subst. exact Hm.
  - apply Hl, Hin. apply list_elem_of_In. left. reflexivity.
Qed.

(** ** Merging with the main config, authorization, cache control *)

Module RepoFacts.
Import Repo RepoDefaults.

Lemma option_or_None {A} (o : option A) : option_or o None = o.
Proof. destruct o; reflexivity. Qed.

Lemma check_auth_ok bv r m auth p b :
  check_auth bv r m auth p = Ok b →
  (b = false ∧ m = Get ∧ r.(publicly_readable) ≠ Some false) ∨
  (b = true ∧ ∃ a t pa,
     auth = Some a ∧ r.(tokens) !! a.(username) = Some t ∧
     t.(paths) !! p = Some pa ∧ bv a.(password) t.(token_hash) = Ok true ∧
     match m with
     | Get => pa.(read) | Put => pa.(put) | Delete => pa.(delete)
     | OtherMethod => false
     end = true).
Proof.
  unfold check_auth. cbv zeta.
  repeat case_match; intros Hres; try discriminate; injection Hres as <-; subst.
  all: try (right; split; [reflexivity |]; do 3 eexists;
            split_and!; (reflexivity || eassumption)).
  all: left; split_and!; [reflexivity | reflexivity |];
    match goal with
    | Hn : negb (default true (publicly_readable ?r)) = false |- _ =>
      destruct (publicly_readable r) as [[|] |]; cbn in Hn; congruence
    end.
Qed.

End RepoFacts.

(** A repository whose main config is the default, empty one is left
    unchanged by [merge]. *)
Theorem merge_with_default_main (r : Repo.Repository) :
  Repo.merge r RepoDefaults.default_repository = r.
Proof.
  destruct r. unfold Repo.merge, Repo.vec_extend, Repo.hashmap_extend. cbn.
  rewrite !RepoFacts.option_or_None, !app_nil_r, !(left_id ∅ union). reflexivity.
Qed.

(** A repository whose own config is empty takes every setting of the
    main config, except [time_fresh] and [upstreams], which stay unset and
    empty. *)
Theorem merge_default_into_main (main : Repo.Repository) :
  Repo.merge RepoDefaults.default_repository main =
    Repo.mkRepository main.(Repo.stores_remote_upstream) main.(Repo.publicly_readable)
      main.(Repo.hide_directory_listings) main.(Repo.infer_content_type_on_file_extension)
      None main.(Repo.max_file_size) main.(Repo.cache_control_file)
      main.(Repo.cache_control_metadata) main.(Repo.cache_control_dir_listings)
      main.(Repo.cache_control_status_code) [] main.(Repo.tokens).
Proof.
  destruct main. unfold Repo.merge, Repo.vec_extend, Repo.hashmap_extend. cbn.
  rewrite !(right_id ∅ union). reflexivity.
Qed.

(** Every method but GET needs credentials: without them [check_auth]
    answers 401, whatever the repository's settings. *)
Theorem check_auth_non_get_needs_credentials bv (r : Repo.Repository) m p :
  m ≠ Repo.Get → Repo.check_auth bv r m None p = Err UNAUTHORIZED.
Proof. intros Hm. unfold Repo.check_auth. destruct m; [congruence | reflexivity..]. Qed.

Lemma check_auth_non_get_needs_credentials_witness :
  Repo.Put ≠ Repo.Get ∧
  Repo.check_auth (fun _ _ => Ok true)
    (Repo.mkRepository None (Some true) None None None None [] [] [] ∅ [] ∅)
    Repo.Put None "org/x" = Err UNAUTHORIZED.
Proof.
  split; [discriminate |].
  apply check_auth_non_get_needs_credentials. discriminate.
Defined.

(** [check_auth] lets a request through in two ways only: [Ok false] for
    a GET on a repository whose [publicly_readable] is not [Some false],
    and [Ok true] when credentials were given, their user has a token in
    the merged config, the token lists the exact path, bcrypt accepts the
    password against the token's hash and the token's bit for the method
    ([read], [put] or [delete]) is set. *)
Theorem check_auth_ok_cases bv (r : Repo.Repository) m auth p b :
  Repo.check_auth bv r m auth p = Ok b →
  (b = false ∧ m = Repo.Get ∧ r.(Repo.publicly_readable) ≠ Some false) ∨
  (b = true ∧ ∃ a t pa,
     auth = Some a ∧ r.(Repo.tokens) !! a.(Repo.username) = Some t ∧
     t.(Repo.paths) !! p = Some pa ∧ bv a.(Repo.password) t.(Repo.token_hash) = Ok true ∧
     match m with
     | Repo.Get => pa.(Repo.read) | Repo.Put => pa.(Repo.put)
     | Repo.Delete => pa.(Repo.delete) | Repo.OtherMethod => false
     end = true).
Proof. apply RepoFacts.check_auth_ok. Qed.

Lemma check_auth_ok_cases_witness :
  Repo.check_auth (fun _ _ => Ok true)
    (Samples.repo_with []
       {["alice" := Repo.mkToken "h" {["org/x" := Repo.mkPathAuth true true false]}]})
    Repo.Put (Some (Repo.mkAuth "alice" "pw")) "org/x" = Ok true ∧
  ((true = false ∧ Repo.Put = Repo.Get ∧ Some false ≠ Some false) ∨
   (true = true ∧ ∃ a t pa,
      Some (Repo.mkAuth "alice" "pw") = Some a ∧
      ({["alice" := Repo.mkToken "h" {["org/x" := Repo.mkPathAuth true true false]}]}
         : gmap string Repo.Token) !! a.(Repo.username) = Some t ∧
      t.(Repo.paths) !! "org/x" = Some pa ∧
      (fun _ _ => Ok true : result bool string) a.(Repo.password) t.(Repo.token_hash) = Ok true ∧
      pa.(Repo.put) = true)).
Proof.
  assert (H : Repo.check_auth (fun _ _ => Ok true)
    (Samples.repo_with []
       {["alice" := Repo.mkToken "h" {["org/x" := Repo.mkPathAuth true true false]}]})
    Repo.Put (Some (Repo.mkAuth "alice" "pw")) "org/x" = Ok true) by reflexivity.
  split; [exact H |].
  destruct (check_auth_ok_cases _ _ _ _ _ _ H) as [[_ [Hm _]] | Hr]; [discriminate |].
  right. exact Hr.
Defined.

(** A request with a method other than GET, PUT and DELETE is always
    refused by [check_auth], whatever the credentials. *)
Theorem check_auth_other_method_refused bv (r : Repo.Repository) auth p :
  ∃ ret, Repo.check_auth bv r Repo.OtherMethod auth p = Err ret.
Proof.
  destruct (Repo.check_auth bv r Repo.OtherMethod auth p) as [b | ret] eqn:E; [| eauto].
  destruct (RepoFacts.check_auth_ok _ _ _ _ _ _ E)
    as [[_ [Hm _]] | [_ [a [t [pa [_ [_ [_ [_ Hf]]]]]]]]]; discriminate.
Qed.

(** [apply_cache_control] with a merged config keeps the response's
    headers and appends the headers configured for its status code, the
    main config's list replacing the repository's own when both define
    one; status, body and content type are unchanged. *)
Theorem apply_cache_control_merged (self main : Repo.Repository) (ret : Return) :
  RepoDefaults.apply_cache_control (Repo.merge self main) ret =
    mkReturn ret.(status) ret.(content) ret.(content_type)
      (Some (app (default [] ret.(header_map))
               (map (fun h => (Repo.hname h, Repo.hvalue h))
                  (match main.(Repo.cache_control_status_code) !! ret.(status) with
                   | Some hs => hs
                   | None => default [] (self.(Repo.cache_control_status_code) !! ret.(status))
                   end)))).
Proof.
  unfold RepoDefaults.apply_cache_control, Repo.merge, Repo.hashmap_extend. cbn.
  rewrite lookup_union.
  destruct (main.(Repo.cache_control_status_code) !! ret.(status)) as [hs |];
    destruct (self.(Repo.cache_control_status_code) !! ret.(status)) as [hs' |];
    cbn; rewrite ?app_nil_r; reflexivity.
Qed.

(** ** The look locations *)

Module LookFacts.
Import Repo Look.

Lemma check_upstream_prefix rc acc u :
  (snd acc).(out) `prefix_of` (snd (check_upstream rc acc u)).(out).
Proof.
  destruct acc as [configs st]. unfold check_upstream.
  destruct u as [p | r]; [| reflexivity].
  destruct (decide (p ∈ visited st)); [reflexivity |].
  destruct (rc !! p); cbn; [apply prefix_app_r; reflexivity | reflexivity].
Qed.

Lemma fold_check_upstream_prefix rc ups acc :
  (snd acc).(out) `prefix_of` (snd (fold_left (check_upstream rc) ups acc)).(out).
Proof.
  revert acc. induction ups as [| u ups IH]; intros acc; cbn [fold_left]; [reflexivity |].
  etrans; [apply check_upstream_prefix | apply IH].
Qed.

Lemma check_repo_loop_prefix fuel rc configs st st' :
  check_repo_loop fuel rc configs st = Some st' → st.(out) `prefix_of` st'.(out).
Proof.
  revert configs st. induction fuel as [| fuel IH]; intros configs st;
    destruct configs as [| [n c] configs]; cbn; try discriminate;
    try (intros H; injection H as <-; reflexivity).
  pose proof (fold_check_upstream_prefix rc c.(upstreams) (configs, st)) as Hp.
  destruct (fold_left _ _ _) as [configs' st1]. cbn in Hp.
  intros H. etrans; [exact Hp | exact (IH _ _ H)].
Qed.

Lemma join_loop_prefix disk fuel repo st st' :
  join_loop disk fuel repo st = Some st' → st.(out) `prefix_of` st'.(out).
Proof.
  revert st. induction fuel as [| fuel IH]; intros st; cbn;
    destruct (js st) as [| p rest]; try discriminate;
    try (intros H; injection H as <-; reflexivity).
  unfold get_repo_config. cbn.
  destruct (cache st !! p) as [c |];
    [| destruct (disk !! p) as [c |]].
  - destruct (check_repo fuel repo c _) as [st1 |] eqn:E; [| discriminate].
    intros H. apply IH in H. unfold check_repo in E. apply check_repo_loop_prefix in E.
    cbn in E, H. etrans; [exact E |]. etrans; [| exact H].
    apply prefix_app_r. reflexivity.
  - destruct (check_repo fuel repo c _) as [st1 |] eqn:E; [| discriminate].
    intros H. apply IH in H. unfold check_repo in E. apply check_repo_loop_prefix in E.
    cbn in E, H. etrans; [exact E |]. etrans; [| exact H].
    apply prefix_app_r. reflexivity.
  - intros H. apply IH in H. exact H.
Qed.

End LookFacts.

(** The look locations computed by [get_repo_look_locations] start with
    the requested repository and its config: the loops only append. *)
Theorem look_locations_start_with_requested_repo disk fuel cache0 repo config out errs :
  Look.get_repo_look_locations disk fuel cache0 repo config = Some (out, errs) →
  ∃ rest, out = (repo, config) :: rest.
Proof.
  unfold Look.get_repo_look_locations.
  destruct (Look.check_repo fuel repo config _) as [st |] eqn:E1; [| discriminate].
  destruct (Look.join_loop disk fuel repo st) as [st' |] eqn:E2; [| discriminate].
  intros H. injection H as <- <-.
  unfold Look.check_repo in E1. apply LookFacts.check_repo_loop_prefix in E1.
  apply LookFacts.join_loop_prefix in E2. cbn in E1.
  destruct (transitivity E1 E2) as [rest Hr]. exists rest. exact Hr.
Qed.

Lemma look_locations_start_with_requested_repo_witness :
  ∃ rest,
    fst (default ([], []) (Look.get_repo_look_locations ∅ 10 Samples.cyc_cache "a"
                             Samples.cyc_a)) = ("a", Samples.cyc_a) :: rest.
Proof.
  destruct (look_locations_start_with_requested_repo ∅ 10 Samples.cyc_cache "a"
              Samples.cyc_a
              (fst (default ([], []) (Look.get_repo_look_locations ∅ 10 Samples.cyc_cache
                                        "a" Samples.cyc_a)))
              (snd (default ([], []) (Look.get_repo_look_locations ∅ 10 Samples.cyc_cache
                                        "a" Samples.cyc_a))))
    as [rest Hr].
  - vm_compute. reflexivity.
  - exists rest. exact Hr.
Defined.

(** ** Collecting the lookup results *)

Module ResolveFacts.
Import ResolveGet.

Lemma check_result_loop_no_positive out errs ts :
  positives ts = [] →
  check_result_loop out errs ts =
    (out, app errs (flat_map (fun j => match j with
                                       | TaskOk _ => []
                                       | TaskErr v => v
                                       | TaskPanicked => [Panicked]
                                       end) ts)).
Proof.
  revert errs. induction ts as [| [v | es |] ts IH]; intros errs Hp; cbn in *.
  - rewrite app_nil_r. reflexivity.
  - discriminate.
  - rewrite IH by exact Hp. rewrite app_assoc. reflexivity.
  - rewrite IH by exact Hp. rewrite <- app_assoc. reflexivity.
Qed.

Lemma listing_run_all acc ps :
  Forall (fun p => ∃ e, p = DirListing e) ps →
  listing_run acc ps = acc ∪ ⋃ (map (fun p => match p with
                                              | DirListing e => e
                                              | _ => ∅
                                              end) ps).
Proof.
  revert acc. induction ps as [| p ps IH]; intros acc Hall; cbn.
  - rewrite (right_id_L ∅ union). reflexivity.
  - inversion Hall as [| ? ? [e ->] Hrest]; subst. cbn.
    rewrite IH by exact Hrest. set_solver.
Qed.

End ResolveFacts.

(** When no lookup task succeeds, [check_result] returns no result and
    the errors it was given followed by the errors of every task in
    completion order, a panicked task contributing [Panicked]. *)
Theorem check_result_all_failed errs ts :
  ResolveGet.positives ts = [] →
  ResolveGet.check_result errs ts =
    (None, app errs (flat_map (fun j => match j with
                                        | TaskOk _ => []
                                        | TaskErr v => v
                                        | TaskPanicked => [Panicked]
                                        end) ts)).
Proof. apply ResolveFacts.check_result_loop_no_positive. Qed.

Lemma check_result_all_failed_witness :
  ResolveGet.check_result [FileStartsWithDot]
    [TaskErr [NotFound]; TaskPanicked; TaskErr [NotFound; OpenFile]] =
    (None, [FileStartsWithDot; NotFound; Panicked; NotFound; OpenFile]).
Proof.
  exact (check_result_all_failed [FileStartsWithDot]
           [TaskErr [NotFound]; TaskPanicked; TaskErr [NotFound; OpenFile]] eq_refl).
Defined.

(** When every successful lookup is a directory listing, [check_result]
    answers with the union of all of them, whatever their order. *)
Theorem check_result_merges_all_listings errs ts e es :
  ResolveGet.positives ts = ResolveGet.DirListing e :: es →
  Forall (fun p => ∃ e', p = ResolveGet.DirListing e') es →
  fst (ResolveGet.check_result errs ts) =
    Some (ResolveGet.DirListing
            (e ∪ ⋃ (map (fun p => match p with
                                  | ResolveGet.DirListing e => e
                                  | _ => ∅
                                  end) es))).
Proof.
  intros Hp Hall. rewrite ResolveGetFacts.check_result_first_wins, Hp. cbn.
  rewrite ResolveFacts.listing_run_all by exact Hall. reflexivity.
Qed.

Lemma check_result_merges_all_listings_witness :
  fst (ResolveGet.check_result []
         [TaskOk (ResolveGet.DirListing {["a.jar"]}); TaskErr [NotFound];
          TaskOk (ResolveGet.DirListing {["b.pom"]})]) =
    Some (ResolveGet.DirListing ({["a.jar"]} ∪ ⋃ [{["b.pom"]}])).
Proof.
  apply (check_result_merges_all_listings []
           [TaskOk (ResolveGet.DirListing {["a.jar"]}); TaskErr [NotFound];
            TaskOk (ResolveGet.DirListing {["b.pom"]})] {["a.jar"]}
           [ResolveGet.DirListing {["b.pom"]}]).
  - reflexivity.
  - constructor; [eexists; reflexivity | constructor].
Defined.

(** ** Serving a local look location *)

Module LocalFacts.
Import Repo ResolveGet LocalM.

Lemma read_dir_loop_names names out :
  read_dir_loop (map Entry names) out = Ok (DirListing (list_to_set names ∪ out)).
Proof.
  revert out. induction names as [| n names IH]; intros out; cbn.
  - rewrite (left_id_L ∅ union). reflexivity.
  - rewrite IH. do 2 f_equal. set_solver.
Qed.

Definition local_error (e : GetRepoFileError) : Prop :=
  e = NotFound ∨ e = OpenFile ∨ e = ReadDirectory ∨ e = ReadDirectoryEntry ∨
  e = ReadDirectoryEntryNonUTF8Name.

Lemma read_dir_loop_err entries out l :
  read_dir_loop entries out = Err l → ∃ e, l = [e] ∧ local_error e.
Proof.
  revert out. induction entries as [| [| | n] entries IH]; intros out; cbn;
    try discriminate.
  - intros H. injection H as <-. eexists; split; [reflexivity | unfold local_error; tauto].
  - intros H. injection H as <-. eexists; split; [reflexivity | unfold local_error; tauto].
  - apply IH.
Qed.

Lemma stored_dir_err fs l :
  serve_repository_stored_dir fs = Err l → ∃ e, l = [e] ∧ local_error e.
Proof.
  unfold serve_repository_stored_dir.
  destruct (fs_read_dir fs) as [entries | [| |]]; [apply read_dir_loop_err | ..];
    intros H; injection H as <-; eexists; split; try reflexivity; unfold local_error; tauto.
Qed.

Lemma stored_path_err fs d l :
  serve_repository_stored_path fs d = Err l → ∃ e, l = [e] ∧ local_error e.
Proof.
  assert (Hd : delegate fs d = Err l → ∃ e, l = [e] ∧ local_error e).
  { unfold delegate. destruct d; cbn.
    - destruct (serve_repository_stored_dir fs) eqn:E; [discriminate |].
      intros H. injection H as <-. exact (stored_dir_err fs _ E).
    - intros H. injection H as <-. eexists; split; [reflexivity | unfold local_error; tauto]. }
  assert (Hh : ∀ k, handle_err fs d k = Err l → ∃ e, l = [e] ∧ local_error e).
  { intros k. unfold handle_err. destruct k; [destruct d; [exact Hd |] | |];
      intros H; injection H as <-; eexists; split; try reflexivity; unfold local_error; tauto. }
  unfold serve_repository_stored_path.
  destruct (fs_metadata fs) as [[|] | k]; [exact Hd | | apply Hh].
  destruct (fs_open_map fs) as [[m | k] |]; [discriminate | apply Hh |].
  intros H. injection H as <-. eexists; split; [reflexivity | unfold local_error; tauto].
Qed.

End LocalFacts.

(** When the requested repository hides directory listings, or leaves the
    setting unset and the look location hides them, a directory at the
    location is answered exactly as a missing path: with the single error
    [NotFound]. *)
Theorem hidden_directory_answers_not_found (config repo_config : Repo.Repository)
    (fs fs' : LocalM.LocalFs) :
  config.(Repo.hide_directory_listings) = Some true ∨
    (config.(Repo.hide_directory_listings) = None ∧
     repo_config.(Repo.hide_directory_listings) = Some true) →
  fs.(LocalM.fs_metadata) = Ok true →
  fs'.(LocalM.fs_metadata) = Err LocalM.KindNotFound →
  LocalM.serve_repository_stored_path fs (LocalM.display_dir config repo_config) = Err [NotFound] ∧
  LocalM.serve_repository_stored_path fs' (LocalM.display_dir config repo_config) = Err [NotFound].
Proof.
  intros Hh Hfs Hfs'.
  assert (Hd : LocalM.display_dir config repo_config = false).
  { unfold LocalM.display_dir. destruct Hh as [-> | [-> ->]]; reflexivity. }
  rewrite Hd. unfold LocalM.serve_repository_stored_path. rewrite Hfs, Hfs'.
  split; reflexivity.
Qed.

Lemma hidden_directory_answers_not_found_witness :
  LocalM.serve_repository_stored_path
    (LocalM.mkLocalFs (Ok true) None (Ok [LocalM.Entry "a.jar"]))
    (LocalM.display_dir (Samples.repo_with [] ∅)
       (Repo.mkRepository None None (Some true) None None None [] [] [] ∅ [] ∅)) =
    Err [NotFound] ∧
  LocalM.serve_repository_stored_path
    (LocalM.mkLocalFs (Err LocalM.KindNotFound) None (Err LocalM.KindNotFound))
    (LocalM.display_dir (Samples.repo_with [] ∅)
       (Repo.mkRepository None None (Some true) None None None [] [] [] ∅ [] ∅)) =
    Err [NotFound].
Proof.
  apply (hidden_directory_answers_not_found (Samples.repo_with [] ∅)
           (Repo.mkRepository None None (Some true) None None None [] [] [] ∅ [] ∅)
           (LocalM.mkLocalFs (Ok true) None (Ok [LocalM.Entry "a.jar"]))
           (LocalM.mkLocalFs (Err LocalM.KindNotFound) None (Err LocalM.KindNotFound)));
    [right; split | ..]; reflexivity.
Defined.

(** When listings are shown (the requested repository sets
    [hide_directory_listings] to [false], or leaves it unset and the look
    location does not set it to [true]), a readable directory whose entry
    names are all UTF-8 is answered with the listing of exactly those
    names. *)
Theorem shown_directory_lists_entries (config repo_config : Repo.Repository)
    (fs : LocalM.LocalFs) (names : list string) :
  config.(Repo.hide_directory_listings) = Some false ∨
    (config.(Repo.hide_directory_listings) = None ∧
     repo_config.(Repo.hide_directory_listings) ≠ Some true) →
  fs.(LocalM.fs_metadata) = Ok true →
  fs.(LocalM.fs_read_dir) = Ok (map LocalM.Entry names) →
  LocalM.serve_repository_stored_path fs (LocalM.display_dir config repo_config) =
    Ok (ResolveGet.DirListing (list_to_set names)).
Proof.
  intros Hh Hm Hr.
  assert (Hd : LocalM.display_dir config repo_config = true).
  { unfold LocalM.display_dir.
    destruct Hh as [-> | [-> Hn]]; [reflexivity |].
    destruct (Repo.hide_directory_listings repo_config) as [[|] |]; cbn; congruence. }
  rewrite Hd. unfold LocalM.serve_repository_stored_path, LocalM.delegate,
    LocalM.serve_repository_stored_dir. rewrite Hm, Hr. cbn.
  rewrite LocalFacts.read_dir_loop_names, (right_id_L ∅ union). reflexivity.
Qed.

Lemma shown_directory_lists_entries_witness :
  LocalM.serve_repository_stored_path
    (LocalM.mkLocalFs (Ok true) None (Ok (map LocalM.Entry ["a.jar"; "a.pom"])))
    (LocalM.display_dir
       (Repo.mkRepository None None (Some false) None None None [] [] [] ∅ [] ∅)
       (Repo.mkRepository None None (Some true) None None None [] [] [] ∅ [] ∅)) =
    Ok (ResolveGet.DirListing (list_to_set ["a.jar"; "a.pom"])).
Proof.
  apply (shown_directory_lists_entries
           (Repo.mkRepository None None (Some false) None None None [] [] [] ∅ [] ∅)
           (Repo.mkRepository None None (Some true) None None None [] [] [] ∅ [] ∅)
           (LocalM.mkLocalFs (Ok true) None (Ok (map LocalM.Entry ["a.jar"; "a.pom"])))
           ["a.jar"; "a.pom"]); [left | ..]; reflexivity.
Defined.

(** A local look location that fails reports exactly one error, one of
    [NotFound], [OpenFile], [ReadDirectory], [ReadDirectoryEntry] and
    [ReadDirectoryEntryNonUTF8Name]. *)
Theorem stored_path_single_error (fs : LocalM.LocalFs) (display_dir : bool) l :
  LocalM.serve_repository_stored_path fs display_dir = Err l →
  ∃ e, l = [e] ∧
    (e = NotFound ∨ e = OpenFile ∨ e = ReadDirectory ∨ e = ReadDirectoryEntry ∨
     e = ReadDirectoryEntryNonUTF8Name).
Proof. apply LocalFacts.stored_path_err. Qed.

Lemma stored_path_single_error_witness :
  ∃ e, [ReadDirectoryEntryNonUTF8Name] = [e] ∧
    (e = NotFound ∨ e = OpenFile ∨ e = ReadDirectory ∨ e = ReadDirectoryEntry ∨
     e = ReadDirectoryEntryNonUTF8Name).
Proof.
  apply (stored_path_single_error
           (LocalM.mkLocalFs (Ok true) None
              (Ok [LocalM.Entry "a.jar"; LocalM.EntryNonUTF8]))
           true [ReadDirectoryEntryNonUTF8Name]).
  reflexivity.
Defined.

(** ** Parsing Maven paths *)

Module ParseFacts.
Import PathInfoM.

Lemma components_loop_err comps st r :
  components_loop comps st = Err r → r.(status) = 400%N.
Proof.
  revert st. induction comps as [| c comps IH]; intros [[[f v] a] g]; cbn; [discriminate |].
  destruct c; try apply IH; intros H; injection H as <-; reflexivity.
Qed.

Lemma parse_err path r : parse path = Err r → r.(status) = 400%N.
Proof.
  unfold parse.
  destruct (components_loop (rev path) _) as [[[[f v] a] g] | e] eqn:E;
    [| intros H; injection H as <-; eapply components_loop_err; exact E].
  repeat (case_match; subst); intros Hres; try discriminate; injection Hres as <-; simplify_eq; reflexivity.
Qed.

Lemma components_loop_bad comps c st :
  In c comps → PutRoute.is_bad_component c = true → ∃ r, components_loop comps st = Err r.
Proof.
  revert st. induction comps as [| c' comps IH]; intros [[[f v] a] g] Hin Hb; [destruct Hin |].
  destruct Hin as [-> | Hin].
  - destruct c; try discriminate; cbn; eauto.
  - cbn. destruct c'; eauto.
Qed.

Lemma components_loop_curdir pre post st :
  components_loop (app pre (CurDir :: post)) st = components_loop (app pre post) st.
Proof.
  revert st. induction pre as [| c pre IH]; intros [[[f v] a] g]; cbn; [reflexivity |].
  destruct c; try reflexivity; apply IH.
Qed.

End ParseFacts.

Module GroupFacts.
Import GroupM.

Lemma concat_app_head (a b : string) (l : list string) :
  String.concat "." ((a ++ b) :: l) = a ++ String.concat "." (b :: l).
Proof.
  destruct l as [| z l]; [reflexivity |]. cbn. apply StrFacts.sapp_assoc.
Qed.

Lemma fold_dotted (g : list string) (acc : string) :
  acc ≠ "" →
  fold_left (fun initial v =>
               (if String.eqb initial "" then initial else initial ++ ".") ++ v) g acc =
    String.concat "." (acc :: g).
Proof.
  revert acc. induction g as [| y g IH]; intros acc Hacc; cbn [fold_left]; [reflexivity |].
  apply String.eqb_neq in Hacc. rewrite Hacc.
  rewrite IH.
  - rewrite concat_app_head, StrFacts.sapp_assoc. reflexivity.
  - intros E. apply (f_equal String.length) in E.
    rewrite !StrFacts.slen_app in E. cbn in E. lia.
Qed.

End GroupFacts.

(** Every rejection by [PathInfo::parse] has status 400. *)
Theorem parse_rejects_with_400 (path : list PathInfoM.Component) r :
  PathInfoM.parse path = Err r → r.(status) = 400%N.
Proof. apply ParseFacts.parse_err. Qed.

Lemma parse_rejects_with_400_witness :
  (PathInfoM.bad_request "Didn't find a Group-Id in the path").(status) = 400%N.
Proof.
  apply (parse_rejects_with_400 (map PathInfoM.Normal ["lib"; "1.0"; "lib-1.0.jar"])).
  vm_compute. reflexivity.
Defined.

(** [PathInfo::parse] rejects every path with a [..], root or prefix
    component, wherever it stands. *)
Theorem parse_rejects_parent_dir (path : list PathInfoM.Component) c :
  In c path → PutRoute.is_bad_component c = true → ∃ r, PathInfoM.parse path = Err r.
Proof.
  intros Hin Hb. unfold PathInfoM.parse.
  destruct (ParseFacts.components_loop_bad (rev path) c (None, None, None, [])
              (proj1 (in_rev path c) Hin) Hb) as [r ->].
  eauto.
Qed.

Lemma parse_rejects_parent_dir_witness :
  ∃ r, PathInfoM.parse
         (map PathInfoM.Normal ["org"; "example"] ++
          [PathInfoM.ParentDir; PathInfoM.Normal "lib"; PathInfoM.Normal "1.0";
           PathInfoM.Normal "lib-1.0.jar"]) = Err r.
Proof.
  apply (parse_rejects_parent_dir _ PathInfoM.ParentDir); [| reflexivity].
  cbn. tauto.
Defined.

(** [PathInfo::parse] ignores [.] components: removing one anywhere in the
    path does not change the result. *)
Theorem parse_ignores_cur_dir (pre post : list PathInfoM.Component) :
  PathInfoM.parse (app pre (PathInfoM.CurDir :: post)) = PathInfoM.parse (app pre post).
Proof.
  unfold PathInfoM.parse.
  rewrite !rev_app_distr. cbn [rev]. rewrite <- app_assoc. cbn [app].
  rewrite ParseFacts.components_loop_curdir. reflexivity.
Qed.

(** [dotted_group] joins the group's components with dots when the first
    one is not empty; a leading empty component gets no dot. *)
Theorem dotted_group_joins_with_dots (x : string) (g : list string) :
  x ≠ "" →
  GroupM.dotted_group (x :: g) = String.concat "." (x :: g) ∧
  GroupM.dotted_group ("" :: x :: g) = String.concat "." (x :: g).
Proof.
  intros Hx. unfold GroupM.dotted_group. cbn [fold_left String.eqb].
  split; apply GroupFacts.fold_dotted; exact Hx.
Qed.

Lemma dotted_group_joins_with_dots_witness :
  GroupM.dotted_group ["org"; "apache"; "maven"] = "org.apache.maven" ∧
  GroupM.dotted_group [""; "org"; "apache"; "maven"] = "org.apache.maven".
Proof.
  exact (dotted_group_joins_with_dots "org" ["apache"; "maven"] ltac:(discriminate)).
Defined.

(** ** Entity tags *)

Module ETagFacts.
Import Cond.

Lemma strip_prefix_app (p r : string) : Str.strip_prefix p (p ++ r) = Some r.
Proof.
  induction p as [| a p IH]; [reflexivity |]. change (String a p ++ r) with (String a (p ++ r)). cbn [Str.strip_prefix]. rewrite Ascii.eqb_refl. exact IH.
Qed.

Lemma strip_suffix_app (p r : string) : Str.strip_suffix p (r ++ p) = Some r.
Proof.
  unfold Str.strip_suffix. rewrite StripFacts.srev_app, strip_prefix_app, StripFacts.srev_srev.
  reflexivity.
Qed.

Lemma ETag_parse_strong (t : string) : ETag_parse (dquote ++ t ++ dquote) = Some (mkETag false t).
Proof.
  unfold ETag_parse.
  replace (Str.strip_prefix "W/" (dquote ++ t ++ dquote)) with (@None string)
    by reflexivity.
  cbv beta iota. rewrite strip_prefix_app. cbn [and_then].
  rewrite strip_suffix_app. reflexivity.
Qed.


Lemma split_no_sep (c : ascii) (s : string) :
  ¬ In c (list_ascii_of_string s) → Str.split c s = [s].
Proof.
  induction s as [| a s IH]; intros Hn; [reflexivity |]. cbn in Hn |- *.
  destruct (Ascii.eqb_spec a c) as [-> | _]; [exfalso; apply Hn; left; reflexivity |].
  rewrite IH by tauto. reflexivity.
Qed.

Lemma get_in (k : nat) (s : string) (c : ascii) :
  String.get k s = Some c → In c (list_ascii_of_string s).
Proof.
  revert k. induction s as [| a s IH]; intros k; [discriminate |].
  destruct k as [| k]; cbn.
  - intros H. injection H as <-. left. reflexivity.
  - intros H. right. exact (IH k H).
Qed.

Lemma b64_char_chars (n : Z) (c : ascii) :
  In c (list_ascii_of_string (b64_char n)) → In c (list_ascii_of_string b64_alphabet).
Proof.
  unfold b64_char. destruct (String.get _ b64_alphabet) as [d |] eqn:E; [| intros []].
  intros [<- | []]. exact (get_in _ _ _ E).
Qed.

Definition b64_output_char (c : ascii) : Prop :=
  In c (list_ascii_of_string b64_alphabet) ∨ c = "="%char.

Lemma chars_app (s t : string) (P : ascii → Prop) :
  (∀ c, In c (list_ascii_of_string s) → P c) →
  (∀ c, In c (list_ascii_of_string t) → P c) →
  ∀ c, In c (list_ascii_of_string (s ++ t)) → P c.
Proof.
  intros Hs Ht c. rewrite StripFacts.list_ascii_of_string_app, in_app_iff.
  intros [H | H]; auto.
Qed.

Lemma base64_encode_chars (l : list Z) :
  ∀ c, In c (list_ascii_of_string (base64_encode l)) → b64_output_char c.
Proof.
  remember (length l) as n eqn:Hn. revert l Hn.
  induction n as [n IH] using lt_wf_ind. intros l Hn.
  assert (Hb : ∀ m c, In c (list_ascii_of_string (b64_char m)) → b64_output_char c).
  { intros m c Hc. left. eapply b64_char_chars. exact Hc. }
  assert (Heq : ∀ c, In c (list_ascii_of_string "=") → b64_output_char c).
  { intros c [<- | []]. right. reflexivity. }
  destruct l as [| a [| b [| d rest]]]; cbn [base64_encode].
  - intros c [].
  - apply chars_app; [apply Hb |]. apply chars_app; [apply Hb |].
    intros c [<- | [<- | []]]; right; reflexivity.
  - apply chars_app; [apply Hb |]. apply chars_app; [apply Hb |].
    apply chars_app; [apply Hb | exact Heq].
  - apply chars_app; [apply Hb |]. apply chars_app; [apply Hb |].
    apply chars_app; [apply Hb |]. apply chars_app; [apply Hb |].
    apply (IH (length rest)); [subst n; cbn; lia | reflexivity].
Qed.

Lemma etag_value_no_comma (hash : list Z) :
  ¬ In ","%char (list_ascii_of_string (etag_value hash)).
Proof.
  intros H.
  assert (Hp : ∀ c, In c (list_ascii_of_string (etag_value hash)) → c ≠ ","%char).
  { unfold etag_value.
    apply chars_app; [intros c [<- | []]; discriminate |].
    apply chars_app; [intros c Hc; cbn in Hc; intuition (subst; discriminate) |].
    apply chars_app; [| intros c [<- | []]; discriminate].
    intros c Hc. destruct (base64_encode_chars hash c Hc) as [Ha | ->]; [| discriminate].
    intros ->.
    assert (E : existsb (Ascii.eqb ",") (list_ascii_of_string b64_alphabet) = false)
      by reflexivity.
    rewrite <- not_true_iff_false, existsb_exists in E.
    apply E. exists ","%char. split; [exact Ha | reflexivity]. }
  exact (Hp _ H eq_refl).
Qed.

End ETagFacts.


(** The [ETag] header the server sends for a file, sent back as an
    [If-None-Match] or [If-Match] value, is parsed as exactly one strong
    tag, [blake3-] followed by the base64 digest. *)
Theorem etag_header_parses_back (hash : list Z) :
  Cond.ETagValidator_parse (Cond.etag_value hash) =
    Some (Cond.Tags [Cond.mkETag false ("blake3-" ++ Cond.base64_encode hash)]).
Proof.
  unfold Cond.ETagValidator_parse.
  replace (String.eqb (Cond.etag_value hash) "*") with false by reflexivity.
  rewrite ETagFacts.split_no_sep by apply ETagFacts.etag_value_no_comma.
  cbn [Cond.parse_pieces].
  replace (Str.strip_prefix " " (Cond.etag_value hash)) with (@None string) by reflexivity.
  cbn [default]. unfold Cond.etag_value.
  rewrite <- (StrFacts.sapp_assoc "blake3-" (Cond.base64_encode hash) Cond.dquote).
  rewrite ETagFacts.ETag_parse_strong. reflexivity.
Qed.

(** ** Conditional requests *)

Module ServeFacts.
Import Cond.

Lemma req_get_cons n h l :
  req_get n (h :: l) = if String.eqb (fst h) n then snd h :: req_get n l else req_get n l.
Proof. unfold req_get. rewrite filter_cons. destruct (String.eqb (fst h) n); reflexivity. Qed.

Lemma req_get_filter_other n m req :
  n ≠ m →
  req_get n (List.filter (fun h => negb (String.eqb (fst h) m)) req) = req_get n req.
Proof.
  intros Hnm. induction req as [| h req IH]; [reflexivity |].
  cbn [List.filter]. rewrite req_get_cons.
  destruct (String.eqb_spec (fst h) m) as [Em | Em]; cbn [negb].
  - rewrite IH. destruct (String.eqb_spec (fst h) n); [congruence | reflexivity].
  - rewrite !req_get_cons, IH. reflexivity.
Qed.

End ServeFacts.

(** A request without [If-None-Match], [If-Match], [If-Modified-Since] and
    [If-Unmodified-Since] headers gets the file with status 200 and the
    headers ETag, Last-Modified and Server-Timing. *)
Theorem unconditional_request_gets_file tm p2 t2 st hash mtime req :
  Cond.req_get "If-None-Match" req = [] →
  Cond.req_get "If-Match" req = [] →
  Cond.req_get "If-Modified-Since" req = [] →
  Cond.req_get "If-Unmodified-Since" req = [] →
  Cond.serve_mmap tm p2 t2 st hash mtime req =
    mkReturn 200 CMmap Binary
      (Some [("ETag", Cond.etag_value hash); ("Last-Modified", t2 mtime);
             ("Server-Timing", st)]).
Proof.
  intros H1 H2 H3 H4. unfold Cond.serve_mmap, Cond.req_contains.
  rewrite H1, H2, H3, H4. reflexivity.
Qed.

Lemma unconditional_request_gets_file_witness :
  Cond.serve_mmap (fun _ => false) Samples.sample_rfc2822 (fun _ => "date") "t"
    [1; 2; 3]%Z 0 [("Accept", "*/*")] =
    mkReturn 200 CMmap Binary
      (Some [("ETag", Cond.etag_value [1; 2; 3]%Z); ("Last-Modified", "date");
             ("Server-Timing", "t")]).
Proof. apply unconditional_request_gets_file; reflexivity. Defined.

(** When a request has an [If-None-Match] header, its [If-Modified-Since]
    headers have no effect: the response is the one for the request
    without them. *)
Theorem if_none_match_disables_if_modified_since tm p2 t2 st hash mtime req :
  Cond.req_get "If-None-Match" req ≠ [] →
  Cond.serve_mmap tm p2 t2 st hash mtime req =
    Cond.serve_mmap tm p2 t2 st hash mtime
      (List.filter (fun h => negb (String.eqb (fst h) "If-Modified-Since")) req).
Proof.
  intros Hinm. unfold Cond.serve_mmap, Cond.req_contains.
  rewrite !ServeFacts.req_get_filter_other by discriminate.
  destruct (Cond.req_get "If-None-Match" req); [congruence |]. reflexivity.
Qed.

Lemma if_none_match_disables_if_modified_since_witness :
  Cond.serve_mmap (fun _ => false) Samples.sample_rfc2822 (fun _ => "date") "t"
    [1; 2; 3]%Z 0
    [("If-None-Match", "*"); ("If-Modified-Since", "Mon, 01 Jan 2024 00:00:00 +0000")] =
  Cond.serve_mmap (fun _ => false) Samples.sample_rfc2822 (fun _ => "date") "t"
    [1; 2; 3]%Z 0 [("If-None-Match", "*")].
Proof. apply if_none_match_disables_if_modified_since. discriminate. Defined.

(** A request whose only conditional header is one [If-Unmodified-Since]
    with a valid date gets 412 with no body when that date is not after
    the file's modification time, and the file with status 200
    otherwise. *)
Theorem if_unmodified_since_outcome tm p2 t2 st hash mtime req i t :
  Cond.req_get "If-None-Match" req = [] →
  Cond.req_get "If-Match" req = [] →
  Cond.req_get "If-Modified-Since" req = [] →
  Cond.req_get "If-Unmodified-Since" req = [i] →
  p2 i = Ok t →
  Cond.serve_mmap tm p2 t2 st hash mtime req =
    if (t <=? mtime)%Z
    then mkReturn 412 CNone Binary
           (Some [("ETag", Cond.etag_value hash); ("Last-Modified", t2 mtime);
                  ("Server-Timing", st)])
    else mkReturn 200 CMmap Binary
           (Some [("ETag", Cond.etag_value hash); ("Last-Modified", t2 mtime);
                  ("Server-Timing", st)]).
Proof.
  intros H1 H2 H3 H4 Hp. unfold Cond.serve_mmap, Cond.req_contains.
  rewrite H1, H2, H3, H4. cbn. rewrite Hp.
  destruct (t <=? mtime)%Z; reflexivity.
Qed.

Lemma if_unmodified_since_outcome_witness :
  (Cond.serve_mmap (fun _ => false) Samples.sample_rfc2822 (fun _ => "date") "t"
     [1; 2; 3]%Z 1704067200000000000
     [("If-Unmodified-Since", "Mon, 01 Jan 2024 00:00:00 +0000")]).(status) = 412%N.
Proof.
  rewrite (if_unmodified_since_outcome (fun _ => false) Samples.sample_rfc2822
             (fun _ => "date") "t" [1; 2; 3]%Z 1704067200000000000
             [("If-Unmodified-Since", "Mon, 01 Jan 2024 00:00:00 +0000")]
             "Mon, 01 Jan 2024 00:00:00 +0000" 1704067200000000000)
    by reflexivity.
  reflexivity.
Defined.

(** ** Server-Timing values *)

Module TimingsFacts.
Import Timings StrFacts.

Lemma eqb_empty (s : string) : String.eqb s "" = true ↔ s = "".
Proof. apply String.eqb_eq. Qed.

Lemma sapp_nil_l (s : string) : "" ++ s = s.
Proof. reflexivity. Qed.

Lemma eqb_cons_app (a : ascii) (s t : string) :
  String.eqb (String a s ++ t) "" = false.
Proof. reflexivity. Qed.

Lemma concat_empty_cons (i : string) (rest : list string) :
  String.concat "" (i :: rest) = i ++ String.concat "" rest.
Proof. destruct rest; cbn; [rewrite sapp_nil_r |]; reflexivity. Qed.

Lemma push_iter_loop_true (v : string) (items : list string) :
  push_iter_loop true v items = v ++ String.concat "" items.
Proof.
  revert v. induction items as [|i rest IH]; intros v; cbn [push_iter_loop].
  - cbn. rewrite sapp_nil_r. reflexivity.
  - rewrite IH, concat_empty_cons, sapp_assoc. reflexivity.
Qed.

End TimingsFacts.

(** [ServerTimings::append] is associative and has [ServerTimings::new]
    as its identity on both sides: the [", "] is put between two values
    only when both are non-empty. *)
Theorem server_timings_append_monoid (a b c : Timings.ServerTimings) :
  Timings.append (Timings.append a b) c = Timings.append a (Timings.append b c) ∧
  Timings.append Timings.new a = a ∧ Timings.append a Timings.new = a.
Proof.
  destruct a as [[|x xs]], b as [[|y ys]], c as [[|z zs]];
    unfold Timings.append, Timings.new; cbn;
    rewrite ?StrFacts.sapp_nil_r, ?TimingsFacts.sapp_nil_l, ?StrFacts.sapp_assoc,
      ?TimingsFacts.eqb_cons_app; cbn;
    split_and!; try reflexivity;
    rewrite ?StrFacts.sapp_assoc; reflexivity.
Qed.

(** For a non-empty list of parts, [push_iter_nodelim] adds the parts
    concatenated without separators, after a single [", "] when the value
    was not empty: the same as one [push] of their concatenation. *)
Theorem push_iter_nodelim_is_one_push (v : Timings.ServerTimings)
    (items : list string) (Hne : items ≠ []) :
  Timings.push_iter_nodelim v items = Timings.push v (String.concat "" items).
Proof.
  destruct items as [|i rest]; [contradiction |].
  unfold Timings.push_iter_nodelim, Timings.push. cbn [Timings.push_iter_loop].
  rewrite TimingsFacts.push_iter_loop_true, TimingsFacts.concat_empty_cons.
  destruct v as [[|x xs]]; cbn; f_equal; rewrite ?StrFacts.sapp_assoc; reflexivity.
Qed.

Lemma push_iter_nodelim_is_one_push_witness :
  ["a"; "b"] ≠ [] ∧
  Timings.push_iter_nodelim (Timings.mkServerTimings "x") ["a"; "b"] =
    Timings.push (Timings.mkServerTimings "x") (String.concat "" ["a"; "b"]).
Proof.
  split; [discriminate |].
  apply push_iter_nodelim_is_one_push. discriminate.
Defined.

(** ** Storing a remote file *)

Module RemoteFacts.
Import RemoteM.

Definition total (bodies : list (list Z)) : N :=
  N.of_nat (length (concat bodies)).

Lemma body_loop_ok io path limit bodies cur written fs :
  (∀ b, io.(write_all_ok) b = true) →
  (cur + total bodies < limit)%N →
  body_loop io path limit (map ChunkOk bodies) cur written fs =
    (Ok (app written (concat bodies)), fs).
Proof.
  intros Hw. revert cur written.
  induction bodies as [|b rest IH]; intros cur written Hlt; cbn.
  - rewrite app_nil_r. reflexivity.
  - unfold total in Hlt. cbn in Hlt. rewrite length_app in Hlt.
    destruct (N.leb_spec limit (cur + N.of_nat (length b))); [lia |].
    rewrite Hw, IH, app_assoc; [reflexivity |].
    unfold total. lia.
Qed.

Lemma body_loop_too_large io path limit bodies cur written fs :
  (∀ b, io.(write_all_ok) b = true) →
  bodies ≠ [] →
  (limit <= cur + total bodies)%N →
  body_loop io path limit (map ChunkOk bodies) cur written fs =
    (Err UpstreamFileTooLarge, fs).
Proof.
  intros Hw. revert cur written.
  induction bodies as [|b rest IH]; intros cur written Hne Hle; [contradiction |].
  cbn. unfold total in Hle. cbn in Hle. rewrite length_app in Hle.
  destruct (N.leb_spec limit (cur + N.of_nat (length b))); [reflexivity |].
  rewrite Hw. apply IH.
  - intros ->. cbn in Hle. lia.
  - unfold total. lia.
Qed.

End RemoteFacts.

(** With the cache file created, every chunk read and every write
    succeeding: when the body stays under the size limit and the flush,
    seek and shared relock succeed, the mapped file holds exactly the
    concatenated chunks and is kept on disk; when a non-empty body
    reaches the limit at any chunk, the answer is
    [UpstreamFileTooLarge]. *)
Theorem remote_store_streams_body (io : RemoteM.RemoteIo) (path : string)
    (limit : N) (fs : RemoteM.Fs) (bodies : list (list Z))
    (Hcreated : io.(RemoteM.create) = RemoteM.Created)
    (Hchunks : io.(RemoteM.chunks) = map RemoteM.ChunkOk bodies)
    (Hwrite : ∀ b, io.(RemoteM.write_all_ok) b = true) :
  ((N.of_nat (length (concat bodies)) < limit)%N →
   io.(RemoteM.shutdown_ok) = true → io.(RemoteM.seek_ok) = true →
   io.(RemoteM.relock_ok) = true →
   RemoteM.serve_remote_store io path limit fs =
     (Ok (concat bodies), {[path]} ∪ fs)) ∧
  (bodies ≠ [] → (limit <= N.of_nat (length (concat bodies)))%N →
   RemoteM.serve_remote_store io path limit fs =
     (Err [UpstreamFileTooLarge], {[path]} ∪ fs)).
Proof.
  unfold RemoteM.serve_remote_store. rewrite Hcreated, Hchunks. split.
  - intros Hlt Hs Hk Hr.
    rewrite RemoteFacts.body_loop_ok; [| exact Hwrite | unfold RemoteFacts.total; lia].
    rewrite Hs, Hk, Hr. reflexivity.
  - intros Hne Hle.
    rewrite RemoteFacts.body_loop_too_large;
      [reflexivity | exact Hwrite | exact Hne | unfold RemoteFacts.total; lia].
Qed.

Lemma remote_store_streams_body_witness :
  RemoteM.serve_remote_store Samples.remote_sample_io "a/b.jar" 10 ∅ =
    (Ok [1; 2; 3]%Z, {["a/b.jar"]} ∪ ∅) ∧
  RemoteM.serve_remote_store Samples.remote_sample_io "a/b.jar" 2 ∅ =
    (Err [UpstreamFileTooLarge], {["a/b.jar"]} ∪ ∅).
Proof.
  destruct (remote_store_streams_body Samples.remote_sample_io "a/b.jar" 10 ∅
              [[1; 2]; [3]]%Z eq_refl eq_refl (fun _ => eq_refl)) as [H1 _].
  destruct (remote_store_streams_body Samples.remote_sample_io "a/b.jar" 2 ∅
              [[1; 2]; [3]]%Z eq_refl eq_refl (fun _ => eq_refl)) as [_ H2].
  split.
  - apply H1; [vm_compute | reflexivity | reflexivity | reflexivity]. reflexivity.
  - apply H2; [discriminate | vm_compute; discriminate].
Defined.

(** ** The checks before an upload *)

(** A repository with upstreams never accepts an upload: whatever the
    credentials, the prelude of [put_repo_file] answers with an error, and
    for a well-formed path and no failed authentication guard that error
    is the 403 [REMOTES_FORBIDDEN]. *)
Theorem put_into_repo_with_remotes_refused bv (path : list PathInfoM.Component)
    auth (config : Repo.Repository) (Hups : config.(Repo.upstreams) ≠ []) :
  (∃ r, PutRoute.put_repo_file_prelude bv path auth (Ok config) = Err r) ∧
  (existsb PutRoute.is_bad_component path = false →
   PutRoute.has_root path = false → PutRoute.path_to_str path ≠ None →
   (∀ e, auth ≠ Some (Err e)) →
   PutRoute.put_repo_file_prelude bv path auth (Ok config) =
     Err PutRoute.REMOTES_FORBIDDEN).
Proof.
  assert (Hb : bool_decide (config.(Repo.upstreams) = []) = false)
    by (apply bool_decide_eq_false; exact Hups).
  unfold PutRoute.put_repo_file_prelude. split.
  - repeat case_match; eauto; rewrite Hb in *; discriminate.
  - intros Hbad Hroot Hstr Hauth. rewrite Hbad, Hroot.
    destruct (PutRoute.path_to_str path) as [s |]; [| contradiction].
    rewrite Hb. destruct auth as [[a | e] |]; [reflexivity | | reflexivity].
    exfalso. exact (Hauth e eq_refl).
Qed.

Lemma put_into_repo_with_remotes_refused_witness :
  PutRoute.put_repo_file_prelude (fun _ _ => Ok true)
    (map PathInfoM.Normal ["org"; "x"; "1.0"; "x-1.0.jar"])
    (Some (Ok (Repo.mkAuth "alice" "pw"))) (Ok Samples.put_sample_config) =
    Err PutRoute.REMOTES_FORBIDDEN.
Proof.
  apply (put_into_repo_with_remotes_refused (fun _ _ => Ok true)
           (map PathInfoM.Normal ["org"; "x"; "1.0"; "x-1.0.jar"])
           (Some (Ok (Repo.mkAuth "alice" "pw"))) Samples.put_sample_config);
    [discriminate | reflexivity | reflexivity | discriminate | congruence].
Defined.

Module ParseNeverFacts.
Import StripFacts.

(** The number of [-] in a string. *)
Fixpoint dashes (s : string) : nat :=
  match s with
  | EmptyString => 0
  | String a s => (if Ascii.eqb a "-"%char then 1 else 0) + dashes s
  end.

Lemma dashes_app (s t : string) : dashes (s ++ t) = dashes s + dashes t.
Proof.
  induction s as [| a s IH]; [reflexivity |].
  change (String a s ++ t) with (String a (s ++ t)). cbn [dashes]. lia.
Qed.

Lemma rsplit_once_some (c : ascii) (s l r : string) :
  Str.rsplit_once c s = Some (l, r) → s = l ++ String c r.
Proof.
  revert l r. induction s as [| a s IH]; intros l r H; [discriminate |].
  cbn in H. destruct (Str.rsplit_once c s) as [[l' r'] |] eqn:E.
  - injection H as <- <-. rewrite (IH l' r' eq_refl). reflexivity.
  - destruct (Ascii.eqb_spec a c); [| discriminate].
    injection H as <- <-. subst. reflexivity.
Qed.

(** The name that [parse] matches against [<artifact>-<version>-] has
    no more dashes than the version component it is cut from, and the
    version it strips has at least one dash less than that component. *)
Lemma parse_dash_count (a v name n1 n2 ver n3 n4 : string) :
  (dashes name <= dashes v)%nat →
  Str.strip_prefix a name = Some n1 → Str.strip_prefix "-" n1 = Some n2 →
  (v = ver ∨ v = ver ++ "-SNAPSHOT") →
  Str.strip_prefix ver n2 = Some n3 → Str.strip_prefix "-" n3 = Some n4 →
  False.
Proof.
  intros Hle H1 H2 Hv H3 H4.
  apply strip_prefix_some in H1, H2, H3, H4. subst.
  rewrite !dashes_app in Hle. cbn in Hle.
  destruct Hv as [-> | ->]; rewrite ?dashes_app in Hle; cbn in Hle; lia.
Qed.

Lemma parse_not_ok (path : list PathInfoM.Component) (info : PathInfoM.PathInfo) :
  PathInfoM.parse path ≠ Ok info.
Proof.
  unfold PathInfoM.parse. intros H.
  destruct (PathInfoM.components_loop _ _) as [[[[? [v |]] [a |]] [| g0 gs]] | e];
    try discriminate.
  cbv zeta in H.
  assert (Hname : ∃ name ext,
    (match Str.rsplit_once "."%char v with
     | Some (name, ext) => (name, Some ext)
     | None => (v, None)
     end) = (name, ext) ∧ (dashes name <= dashes v)%nat).
  { destruct (Str.rsplit_once "."%char v) as [[name ext] |] eqn:Er.
    - exists name, (Some ext). split; [reflexivity |].
      rewrite (rsplit_once_some _ _ _ _ Er), dashes_app. lia.
    - exists v, None. split; [reflexivity | lia]. }
  destruct Hname as [name [ext [Hne Hle]]]. rewrite Hne in H.
  unfold and_then in H.
  destruct (Str.strip_prefix a name) as [n1 |] eqn:H1; [| discriminate].
  destruct (Str.strip_prefix "-" n1) as [n2 |] eqn:H2; [| discriminate].
  assert (Hver : ∃ ver snap,
    (match Str.strip_suffix "-SNAPSHOT" v with
     | Some v => (v, true)
     | None => (v, false)
     end) = (ver, snap) ∧ (v = ver ∨ v = ver ++ "-SNAPSHOT")).
  { destruct (Str.strip_suffix "-SNAPSHOT" v) as [ver |] eqn:Es.
    - exists ver, true. split; [reflexivity |]. right. exact (strip_suffix_some _ _ _ Es).
    - exists v, false. split; [reflexivity | left; reflexivity]. }
  destruct Hver as [ver [snap [Hvs Hv]]]. rewrite Hvs in H.
  destruct (Str.strip_prefix ver n2) as [n3 |] eqn:H3; [| discriminate].
  destruct (Str.strip_prefix "-" n3) as [n4 |] eqn:H4; [| discriminate].
  exact (parse_dash_count a v name n1 n2 ver n3 n4 Hle H1 H2 Hv H3 H4).
Qed.

End ParseNeverFacts.

(** [PathInfo::parse] never succeeds: the file name it matches is cut
    from the version component, which cannot start with
    [<artifact>-<version>-]. So the prelude of [put_repo_file] never lets
    an upload through, whatever the path, credentials and config. *)
Theorem parse_never_succeeds (path : list PathInfoM.Component)
    (info : PathInfoM.PathInfo) bv auth (config : result Repo.Repository Return) :
  PathInfoM.parse path ≠ Ok info ∧
  PutRoute.put_repo_file_prelude bv path auth config ≠ Ok info.
Proof.
  split; [apply ParseNeverFacts.parse_not_ok |].
  unfold PutRoute.put_repo_file_prelude.
  repeat case_match; try discriminate; apply ParseNeverFacts.parse_not_ok.
Qed.

(** ** Basic authentication *)

Module AuthFacts.

Lemma split_once_first (c : ascii) (u p : string) :
  ¬ In c (list_ascii_of_string u) →
  Str.split_once c (u ++ String c p) = Some (u, p).
Proof.
  induction u as [| a u IH]; intros Hn.
  - change ("" ++ String c p) with (String c p). cbn [Str.split_once].
    rewrite Ascii.eqb_refl. reflexivity.
  - change (String a u ++ String c p) with (String a (u ++ String c p)).
    cbn [Str.split_once]. cbn in Hn.
    destruct (Ascii.eqb_spec a c); [subst; tauto |].
    rewrite IH by tauto. reflexivity.
Qed.

End AuthFacts.

(** The [Authorization] request guard forwards with 403 exactly when the
    header is absent; every failure it reports has status 400. *)
Theorem from_request_outcomes decode from_utf8 (req : list (string * string)) :
  (AuthM.from_request decode from_utf8 req = AuthM.Forward 403 ↔
   Cond.req_get "Authorization" req = []) ∧
  (∀ s, AuthM.from_request decode from_utf8 req = AuthM.Forward s → s = 403%N) ∧
  (∀ s r, AuthM.from_request decode from_utf8 req = AuthM.Failure s r →
   s = 400%N ∧ r.(status) = 400%N).
Proof.
  unfold AuthM.from_request, AuthM.bad_auth.
  destruct (Cond.req_get "Authorization" req) as [| h rest]; cbn [head].
  - split_and!; [tauto | congruence | discriminate].
  - split_and!; [| intros s Hs | intros s r Hs];
      repeat case_match; try discriminate; try (split; congruence);
      try (injection Hs as <- <-; split; reflexivity).
Qed.

(** A Basic authorization header whose decoded text is [u:p], with no
    [:] in [u], yields the user [u] and the password [p]: the text is split
    at its first [:], so the password may itself contain [:]. *)
Theorem from_request_splits_at_first_colon decode from_utf8
    (req : list (string * string)) (b : string) (rest : list string)
    (bytes : list Z) (u p : string)
    (Hh : Cond.req_get "Authorization" req = ("Basic " ++ b) :: rest)
    (Hd : decode b = Some bytes)
    (Hu : from_utf8 bytes = Some (u ++ ":" ++ p))
    (Hc : ¬ In ":"%char (list_ascii_of_string u)) :
  AuthM.from_request decode from_utf8 req = AuthM.Success (Repo.mkAuth u p).
Proof.
  unfold AuthM.from_request. rewrite Hh. cbn [head].
  rewrite ETagFacts.strip_prefix_app, Hd, Hu.
  change (":" ++ p) with (String ":" p).
  rewrite AuthFacts.split_once_first by exact Hc. reflexivity.
Qed.

Lemma from_request_splits_at_first_colon_witness :
  AuthM.from_request (fun _ => Some []) (fun _ => Some ("alice" ++ ":" ++ "pa:ss"))
    [("Authorization", "Basic " ++ "YWxpY2U6cGE6c3M=")] =
    AuthM.Success (Repo.mkAuth "alice" "pa:ss").
Proof.
  apply (from_request_splits_at_first_colon (fun _ => Some [])
           (fun _ => Some ("alice" ++ ":" ++ "pa:ss"))
           [("Authorization", "Basic " ++ "YWxpY2U6cGE6c3M=")]
           "YWxpY2U6cGE6c3M=" [] [] "alice" "pa:ss");
    [reflexivity | reflexivity | reflexivity | cbn; intuition discriminate].
Defined.
